(** * SMTPlan: the command-line driver (SMTPlan/src/SMTPlan.cpp)

    A shallow embedding of the driver of SMTPlan: the option table, the
    usage text, [parseArguments] and [main] with its iterative-deepening
    loop.  The parser, the grounder, the RPG pruner, the encoder and the
    shell are collaborators of the driver; what they answer is read from a
    [World], what the driver asks of them is recorded in a trace of
    [Event]s.

    Conventions.
    - C [int] values are integers of [Z] between [INT_MIN] and [INT_MAX]:
      [atoi] returns such a value for every string.  The one arithmetic
      operation of the driver, [i++] in the search loop, is undefined on
      [INT_MAX]; the model ends such a run in [SignedOverflow].
    - A string literal of the source is kept as it is written there, so a
      backslash followed by [n] or [t] stands for the escape of the C
      source.
    - The cursor [i] into [argv] is the suffix [argv[i..argc-1]]: [i++]
      drops the head, [i == argc] is the empty suffix.
    - The grounder and the pruner are handed the options by reference;
      they are taken to leave them as they are.
    - The search loop may go on for ever; its model runs on fuel, one unit
      for each evaluation of the loop condition. *)

From Stdlib Require Import String Ascii ZArith List Bool Lia Permutation.
Import ListNotations.
Open Scope string_scope.
Open Scope list_scope.
Open Scope Z_scope.

(** ** libc *)

Module Libc.

(** [isspace] in the C locale. *)
Definition isspace (c : ascii) : bool :=
  let n := nat_of_ascii c in
  (Nat.eqb n 32 || (Nat.leb 9 n && Nat.leb n 13))%bool.

Definition digit (c : ascii) : option Z :=
  let n := nat_of_ascii c in
  if (Nat.leb 48 n && Nat.leb n 57)%bool then Some (Z.of_nat (n - 48)) else None.

Fixpoint skip_space (s : string) : string :=
  match s with
  | String c t => if isspace c then skip_space t else s
  | EmptyString => s
  end.

(** The longest prefix of decimal digits, read in base ten. *)
Fixpoint digits (acc : Z) (s : string) : Z :=
  match s with
  | String c t =>
      match digit c with
      | Some d => digits (10 * acc + d) t
      | None => acc
      end
  | EmptyString => acc
  end.

Definition INT_MAX : Z := 2147483647.
Definition INT_MIN : Z := -2147483648.
Definition LONG_MAX : Z := 9223372036854775807.
Definition LONG_MIN : Z := -9223372036854775808.

(** [strtol(s, NULL, 10)]: leading white space, an optional sign, then
    digits; what follows the digits is ignored and no digit at all gives 0.
    A value that does not fit a [long] (64 bits) is replaced by [LONG_MAX]
    or [LONG_MIN]. *)
Definition strtol (s : string) : Z :=
  let v := match skip_space s with
           | String "-" t => - digits 0 t
           | String "+" t => digits 0 t
           | t => digits 0 t
           end in
  Z.max LONG_MIN (Z.min LONG_MAX v).

(** The conversion of a [long] to [int]: the value modulo 2^32, read as a
    signed 32-bit integer. *)
Definition int_of_long (z : Z) : Z :=
  (z + 2147483648) mod 4294967296 - 2147483648.

(** [atoi] as the C library computes it, [(int) strtol(s, NULL, 10)]: a
    numeral that fits an [int] gives its value; one that does not (which
    ISO C leaves undefined) gives what the conversion of the [long] leaves,
    so 2147483648 is read as -2147483648 and 4294967297 as 1.  The result
    is always an [int]. *)
Definition atoi (s : string) : Z := int_of_long (strtol s).

End Libc.

Import Libc.

(** ** Data model *)

(** [SMTPlan::Argument]: one row of the option table. *)
Record Argument := mkArgument {
  name : string;
  has_value : bool;
  help : string
}.

(** [SMTPlan::PlannerOptions], with the fields the driver touches. *)
Record PlannerOptions := mkOptions {
  domain_path : string;
  problem_path : string;
  encoding_path : string;
  solve : bool;
  explanatory_var_names : bool;
  lower_bound : Z;
  upper_bound : Z;
  step_size : Z;
  prune : bool;
  rpg_lower_bound : bool
}.

Definition set_encoding_path (v : string) (o : PlannerOptions) : PlannerOptions :=
  mkOptions (domain_path o) (problem_path o) v (solve o)
    (explanatory_var_names o) (lower_bound o) (upper_bound o) (step_size o)
    (prune o) (rpg_lower_bound o).

Definition set_solve (v : bool) (o : PlannerOptions) : PlannerOptions :=
  mkOptions (domain_path o) (problem_path o) (encoding_path o) v
    (explanatory_var_names o) (lower_bound o) (upper_bound o) (step_size o)
    (prune o) (rpg_lower_bound o).

Definition set_explanatory_var_names (v : bool) (o : PlannerOptions) : PlannerOptions :=
  mkOptions (domain_path o) (problem_path o) (encoding_path o) (solve o)
    v (lower_bound o) (upper_bound o) (step_size o)
    (prune o) (rpg_lower_bound o).

Definition set_lower_bound (v : Z) (o : PlannerOptions) : PlannerOptions :=
  mkOptions (domain_path o) (problem_path o) (encoding_path o) (solve o)
    (explanatory_var_names o) v (upper_bound o) (step_size o)
    (prune o) (rpg_lower_bound o).

Definition set_upper_bound (v : Z) (o : PlannerOptions) : PlannerOptions :=
  mkOptions (domain_path o) (problem_path o) (encoding_path o) (solve o)
    (explanatory_var_names o) (lower_bound o) v (step_size o)
    (prune o) (rpg_lower_bound o).

Definition set_step_size (v : Z) (o : PlannerOptions) : PlannerOptions :=
  mkOptions (domain_path o) (problem_path o) (encoding_path o) (solve o)
    (explanatory_var_names o) (lower_bound o) (upper_bound o) v
    (prune o) (rpg_lower_bound o).

Definition set_prune (v : bool) (o : PlannerOptions) : PlannerOptions :=
  mkOptions (domain_path o) (problem_path o) (encoding_path o) (solve o)
    (explanatory_var_names o) (lower_bound o) (upper_bound o) (step_size o)
    v (rpg_lower_bound o).

Definition set_rpg_lower_bound (v : bool) (o : PlannerOptions) : PlannerOptions :=
  mkOptions (domain_path o) (problem_path o) (encoding_path o) (solve o)
    (explanatory_var_names o) (lower_bound o) (upper_bound o) (step_size o)
    (prune o) v.

(** ** What a run does: the trace *)

(** An argument of a formatted write. [ASeconds] is the [double] returned by
    [getElapsed] or [getTotalElapsed]; its value is not modelled. *)
Inductive Arg :=
| AStr (s : string)
| AInt (n : Z)
| ASeconds
| AEndl.

(** Where the encoder writes: [encoder.setOutput(std::cout)] or
    [encoder.setOutput(pFile)]. *)
Inductive Destination :=
| ToStdout
| ToFile (path : string).

(** Modelled from the spec: [Grounder::ground] is declared in
    SMTPlan/Grounder.h, which the driver only includes; the spec gives
    grounding one failure, GroundingError.  [main] calls
    [grounder.ground(...)] as a statement of its own and reads nothing back
    from it. *)
Inductive Grounding :=
| Grounded
| GroundingError.

Inductive Event :=
| Fprintf (fmt : string) (args : list Arg)      (* fprintf(stdout, fmt, args...) *)
| Cout (items : list Arg)                       (* std::cout << ... *)
| Cerr (items : list Arg)                       (* std::cerr << ... *)
| ParseDomain (path : string)                   (* parser.parseDomain(path) *)
| ParseProblem (path : string)                  (* parser.parseProblem(path) *)
| Ground (outcome : Grounding)                  (* grounder.ground(...) *)
| BuildRPG                                      (* pruner.build(...) *)
| OpenFile (path : string)                      (* pFile.open(path) *)
| Encode (dest : Destination) (happenings : Z)  (* encoder.encode(..., i) *)
| System (command : string).                    (* system(command) *)

(** How a run ends: [return code] from [main], the undefined [i++] on
    [INT_MAX], or a model that was given too little fuel for the loop. *)
Inductive Ending :=
| Exit (code : Z)
| SignedOverflow
| OutOfFuel.

Definition Run : Type := list Event * Ending.

Definition prepend (tr : list Event) (r : Run) : Run :=
  (tr ++ fst r, snd r).

Infix "+>" := prepend (at level 61, right associativity).

(** ** The collaborators *)

Record World := mkWorld {
  (** [parser.parseDomain(path)] and [parser.parseProblem(path)]. *)
  parseDomain : string -> bool;
  parseProblem : string -> bool;
  (** How [grounder.ground(domain, problem, options)] goes. *)
  ground : Grounding;
  (** [pruner.goal_layer] once [pruner.build(grounder, options)] has run. *)
  goal_layer : PlannerOptions -> Z;
  (** Whether [pFile.open(path)] in the iteration with [i] happenings
      leaves the stream open and neither failed nor bad. *)
  file_opens : string -> Z -> bool;
  (** The status [system(command)] returns in the iteration with [i]
      happenings. *)
  system : string -> Z -> Z
}.

(** ** The option table *)

Definition number_of_arguments : nat := 7.

Definition argument : list Argument :=
  [ mkArgument "-h" false "\tPrint this and exit.";
    mkArgument "-p" false "\tUse the RPG reachability analysis to prune variables.";
    mkArgument "-l" true "number\tBegin iterative deepening at an encoding with l happenings (default 1).";
    mkArgument "-r" false "\tUse the RPG reachability analysis to determine the starting bound on hapenings.";
    mkArgument "-u" true "number\tRun iterative deepening until the u is reached. Set -1 for unlimited (default -1).";
    mkArgument "-s" true "number\tIteratively deepen with a step size of s (default 1).";
    mkArgument "-o" true "path\tSave encodings to file in smt2 format.";
    mkArgument "-n" false "\tDo not solve. Generate encoding and exit.";
    mkArgument "-e" false "\tUse human readable variable names in the SMT encoding." ].

(** The rows a loop [for(j=0; j<number_of_arguments; j++)] goes through. *)
Definition scanned_arguments : list Argument :=
  firstn number_of_arguments argument.

Definition printUsage (arg : string) : list Event :=
  Fprintf "Usage: %s domain problem [options]\n" [AStr arg]
  :: Fprintf "Options:\n" []
  :: map (fun a => Fprintf "\t%s\t%s\n" [AStr (name a); AStr (help a)])
         scanned_arguments
  ++ [Fprintf "Example: %s domain.pddl problem.pddl -l 4 -u 10 -s 2\n" [AStr arg]].

(** ** parseArguments *)

(** The chain [if(argument[j].name == "-h") ... else if ...] with [v] for
    [argv[i]]; [None] is its [return false]. *)
Definition set_option (a : Argument) (v : string) (o : PlannerOptions)
  : option PlannerOptions :=
  if (name a =? "-h")%string then None
  else if (name a =? "-l")%string then Some (set_lower_bound (atoi v) o)
  else if (name a =? "-u")%string then Some (set_upper_bound (atoi v) o)
  else if (name a =? "-s")%string then Some (set_step_size (atoi v) o)
  else if (name a =? "-o")%string then Some (set_encoding_path v o)
  else if (name a =? "-n")%string then Some (set_solve false o)
  else if (name a =? "-p")%string then Some (set_prune true o)
  else if (name a =? "-r")%string then Some (set_rpg_lower_bound true o)
  else if (name a =? "-e")%string then Some (set_explanatory_var_names true o)
  else Some o.

(** How the loop over the table is left: at its end, with the cursor at
    [cur :: rest], or through one of its two [return false]. *)
Inductive Scan :=
| ScanEnd (cur : string) (rest : list string) (argumentFound : bool)
          (o : PlannerOptions)
| ScanReturn (out : list Event) (o : PlannerOptions).

(** The loop over [j], from the row at the head of [rows].  [cur] is
    [argv[i]] and [rest] is [argv[i+1..]].  A row that takes a value moves
    the cursor onto the value, and the rows after it are then compared with
    that value. *)
Fixpoint scan (rows : list Argument) (cur : string) (rest : list string)
    (argumentFound : bool) (o : PlannerOptions) : Scan :=
  match rows with
  | [] => ScanEnd cur rest argumentFound o
  | a :: rows' =>
      if negb (name a =? cur)%string then scan rows' cur rest argumentFound o
      else if has_value a then
        match rest with
        | [] =>
            ScanReturn [Fprintf "\nExpected value for option %s\n\n" [AStr cur]] o
        | v :: rest' =>
            match set_option a v o with
            | None => ScanReturn [] o
            | Some o' => scan rows' v rest' true o'
            end
        end
      else
        match set_option a cur o with
        | None => ScanReturn [] o
        | Some o' => scan rows' cur rest true o'
        end
  end.

(** What one turn of the loop over [i] leads to. *)
Inductive Turn :=
| TurnNext (args : list string) (o : PlannerOptions)
| TurnReturn (out : list Event) (result : bool) (o : PlannerOptions).

(** One turn of [for(int i=3; i<argc; i++)], the cursor at [args]. *)
Definition turn (args : list string) (o : PlannerOptions) : Turn :=
  match args with
  | [] => TurnReturn [] true o
  | cur :: rest =>
      match scan scanned_arguments cur rest false o with
      | ScanReturn out o' => TurnReturn out false o'
      | ScanEnd cur' rest' argumentFound o' =>
          if negb argumentFound
          then TurnReturn [Cerr [AStr "Unrecognised argument: "; AStr cur'; AEndl]]
                          false o'
          else TurnNext rest' o'
      end
  end.

(** The loop over [i]; [None] when [fuel] turns were not enough. *)
Fixpoint parse_loop (fuel : nat) (args : list string) (o : PlannerOptions)
  : option (list Event * bool * PlannerOptions) :=
  match turn args o with
  | TurnReturn out result o' => Some (out, result, o')
  | TurnNext args' o' =>
      match fuel with
      | O => None
      | S fuel' => parse_loop fuel' args' o'
      end
  end.

(** The options once the paths and the defaults are assigned. *)
Definition defaults (argv : list string) : PlannerOptions :=
  mkOptions (nth 1 argv "") (nth 2 argv "") ""
    true true 1 (-1) 1 false false.

(** [parseArguments(argc, argv, options)]: what it writes, what it returns
    and the options it leaves.  Every turn moves the cursor by one at
    least, so [argc] turns are enough. *)
Definition parseArguments (argv : list string)
  : option (list Event * bool * PlannerOptions) :=
  parse_loop (length argv) (skipn 3 argv) (defaults argv).

(** ** main *)

Definition solver_command : string :=
  "z3 test.smt2 | paste -sd ' \n' | egrep 'true|duration' | egrep 'sta|duration'".

(** The loop condition [options.upper_bound<0 || i<=options.upper_bound]. *)
Definition within_bound (o : PlannerOptions) (i : Z) : bool :=
  ((upper_bound o <? 0) || (i <=? upper_bound o))%bool.

(** The block under [// set output]: the destination handed to the
    encoder, or the [return 1] when the file does not open. *)
Definition set_output (w : World) (o : PlannerOptions) (i : Z)
  : list Event * option Destination :=
  if (encoding_path o =? "")%string then ([], Some ToStdout)
  else if file_opens w (encoding_path o) i
  then ([OpenFile (encoding_path o)], Some (ToFile (encoding_path o)))
  else ([OpenFile (encoding_path o);
         Cerr [AStr "Unable to open file for output: ";
               AStr (encoding_path o); AEndl]], None).

(** The search loop [for(int i=options.lower_bound; ...; i++)], entered
    with the loop variable at [i].  [pFile.close()] is guarded by
    [!pFile.is_open()], so nothing is closed before the shell runs; the
    stream goes away with the iteration. *)
Fixpoint search_loop (fuel : nat) (w : World) (o : PlannerOptions) (i : Z)
  : Run :=
  match fuel with
  | O => ([], OutOfFuel)
  | S fuel' =>
      if within_bound o i then
        match set_output w o i with
        | (out, None) => (out, Exit 1)
        | (out, Some dest) =>
            (out ++ [Encode dest i;
                     Fprintf "Encoded %i:\t%f seconds\n" [AInt i; ASeconds];
                     System solver_command]) +>
            if system w solver_command i =? 0 then
              ([Fprintf "Solved %i:\t%f seconds\n" [AInt i; ASeconds];
                Fprintf "Total time:\t%f seconds\n" [ASeconds]], Exit 0)
            else
              [Fprintf "Solved %i:\t%f seconds\n" [AInt i; ASeconds]] +>
              if i <? INT_MAX then search_loop fuel' w o (i + 1)
              else ([], SignedOverflow)
        end
      else
        ([Cout [AStr "No plan found in "; AInt (upper_bound o);
                AStr " happenings"; AEndl];
          Fprintf "Total time:\t%f seconds\n" [ASeconds]], Exit 0)
  end.

(** The options the search loop runs with: the lower bound replaced by the
    goal layer under [rpg_lower_bound], and the encoding path replaced by
    the file the solver command reads. *)
Definition search_options (w : World) (o : PlannerOptions) : PlannerOptions :=
  set_encoding_path "test.smt2"
    (if rpg_lower_bound o then set_lower_bound (goal_layer w o) o else o).

(** [main] from [// parse domain and problem] on. *)
Definition plan (fuel : nat) (w : World) (o : PlannerOptions) : Run :=
  if negb (parseDomain w (domain_path o)) then
    ([ParseDomain (domain_path o);
      Cerr [AStr "Domain and Problem parsing failed."; AEndl]], Exit 1)
  else if negb (parseProblem w (problem_path o)) then
    ([ParseDomain (domain_path o); ParseProblem (problem_path o);
      Cerr [AStr "Domain and Problem parsing failed."; AEndl]], Exit 1)
  else
    [ParseDomain (domain_path o); ParseProblem (problem_path o);
     Fprintf "Parsed:\t%f seconds\n" [ASeconds];
     Ground (ground w);
     Fprintf "Grounded:\t%f seconds\n" [ASeconds];
     BuildRPG;
     Fprintf "RPG built:\t%f seconds\n" [ASeconds]] +>
    search_loop fuel w (search_options w o) (lower_bound (search_options w o)).

(** [main(argc, argv)], with [fuel] turns for the search loop. *)
Definition main (fuel : nat) (w : World) (argv : list string) : Run :=
  if (length argv <? 3)%nat then (printUsage (nth 0 argv ""), Exit 1)
  else
    match parseArguments argv with
    | None => ([], OutOfFuel)
    | Some (out, false, _) => (out ++ printUsage (nth 0 argv ""), Exit 1)
    | Some (out, true, options) => out +> plan fuel w options
    end.

(** ** Reading a trace *)

Definition encoded (e : Event) : option Z :=
  match e with Encode _ i => Some i | _ => None end.

Definition destination (e : Event) : option Destination :=
  match e with Encode d _ => Some d | _ => None end.

Definition is_system (e : Event) : bool :=
  match e with System _ => true | _ => false end.

Definition is_cerr (e : Event) : bool :=
  match e with Cerr _ => true | _ => false end.

(** The events in which the driver starts work on the planning task. *)
Definition is_work (e : Event) : bool :=
  match e with
  | ParseDomain _ | ParseProblem _ | Ground _ | BuildRPG
  | OpenFile _ | Encode _ _ | System _ => true
  | _ => false
  end.

Fixpoint filter_map {A B} (f : A -> option B) (l : list A) : list B :=
  match l with
  | [] => []
  | x :: t => match f x with Some y => y :: filter_map f t | None => filter_map f t end
  end.

(** The happening counts a run encodes at, in the order of the run. *)
Definition visited (r : Run) : list Z := filter_map encoded (fst r).

(** The destinations the formula documents of a run are written to. *)
Definition destinations (r : Run) : list Destination :=
  filter_map destination (fst r).

(** How often a run calls the shell. *)
Definition solver_calls (r : Run) : nat := length (filter is_system (fst r)).

(** ** Worlds to run the driver in *)

(** Both files parse, grounding goes well, every file opens, and the
    solver pipeline ends with [status] at every bound but those [sat]
    accepts. *)
Definition plain_world (goal : Z) (sat : Z -> bool) (status : Z) : World :=
  mkWorld (fun _ => true) (fun _ => true) Grounded (fun _ => goal)
          (fun _ _ => true)
          (fun _ i => if sat i then 0 else status).


(** [w] with the status of the solver pipeline at bound [i] replaced. *)
Definition with_status (i st : Z) (w : World) : World :=
  mkWorld (parseDomain w) (parseProblem w) (ground w) (goal_layer w)
          (file_opens w)
          (fun c k => if k =? i then st else system w c k).

Definition command_line (options : list string) : list string :=
  "SMTPlan" :: "domain.pddl" :: "problem.pddl" :: options.

(** The cursor and the options after [n] full turns of the loop over [i],
    when none of them returns. *)
Fixpoint turns (n : nat) (args : list string) (o : PlannerOptions)
  : option (list string * PlannerOptions) :=
  match n with
  | O => Some (args, o)
  | S n' =>
      match turn args o with
      | TurnNext args' o' => turns n' args' o'
      | TurnReturn _ _ _ => None
      end
  end.

(** The rows the loop over [j] compares with [argv[i]]. *)
Definition known_flag (f : string) : bool :=
  existsb (fun a => (name a =? f)%string) scanned_arguments.

Definition takes_value (f : string) : bool :=
  existsb (fun a => ((name a =? f)%string && has_value a)%bool) scanned_arguments.

(** ** The course of the search *)

(** The iteration with [i] happenings gets a destination for its formula. *)
Definition opens (w : World) (o : PlannerOptions) (i : Z) : bool :=
  ((encoding_path o =? "")%string || file_opens w (encoding_path o) i)%bool.

(** What [main] does between [parseArguments] and the search loop when
    both files parse. *)
Definition startup (w : World) (o : PlannerOptions) : list Event :=
  [ParseDomain (domain_path o); ParseProblem (problem_path o);
   Fprintf "Parsed:\t%f seconds\n" [ASeconds];
   Ground (ground w);
   Fprintf "Grounded:\t%f seconds\n" [ASeconds];
   BuildRPG;
   Fprintf "RPG built:\t%f seconds\n" [ASeconds]].

(** One iteration of the search loop that gets its destination and whose
    solver pipeline does not end with status 0. *)
Definition iteration (o : PlannerOptions) (i : Z) : list Event :=
  (if (encoding_path o =? "")%string then [] else [OpenFile (encoding_path o)])
  ++ [Encode (if (encoding_path o =? "")%string then ToStdout
              else ToFile (encoding_path o)) i;
      Fprintf "Encoded %i:\t%f seconds\n" [AInt i; ASeconds];
      System solver_command;
      Fprintf "Solved %i:\t%f seconds\n" [AInt i; ASeconds]].

Fixpoint iterations (o : PlannerOptions) (n : nat) (i : Z) : list Event :=
  match n with
  | O => []
  | S n' => iteration o i ++ iterations o n' (i + 1)
  end.

(** [i; i+1; ...], [n] values. *)
Fixpoint counting (n : nat) (i : Z) : list Z :=
  match n with
  | O => []
  | S n' => i :: counting n' (i + 1)
  end.

(** Every bound from [a] up to [b], [b] left out, passes the loop
    condition, gets its destination, and its solver pipeline ends with a
    status other than 0. *)
Definition unsolved (w : World) (o : PlannerOptions) (a b : Z) : Prop :=
  forall k, a <= k < b ->
    within_bound o k = true /\ opens w o k = true /\
    system w solver_command k <> 0.

(** The search that starts at [L] comes to [i] and cannot open its file. *)
Definition output_fails_at (w : World) (o : PlannerOptions) (L i : Z) : Prop :=
  L <= i <= INT_MAX /\ unsolved w o L i /\
  within_bound o i = true /\ opens w o i = false.

(** The search that starts at [L] comes to [i] and the solver pipeline
    ends with status 0 there. *)
Definition solved_at (w : World) (o : PlannerOptions) (L i : Z) : Prop :=
  L <= i <= INT_MAX /\ unsolved w o L i /\
  within_bound o i = true /\ opens w o i = true /\
  system w solver_command i = 0.

(** The search that starts at [L] passes the upper bound. *)
Definition exhausted (w : World) (o : PlannerOptions) (L : Z) : Prop :=
  0 <= upper_bound o /\
  (L <= upper_bound o -> upper_bound o < INT_MAX) /\
  unsolved w o L (upper_bound o + 1).

Definition exit_code (r : Run) : option Z :=
  match snd r with
  | Exit c => Some c
  | _ => None
  end.

(** [main] gets past its two checks of the command line with options [o]. *)
Definition accepted (argv : list string) (o : PlannerOptions) : Prop :=
  (3 <= length argv)%nat /\ parseArguments argv = Some ([], true, o).

(** ... and past the parser. *)
Definition parsed (w : World) (argv : list string) (o : PlannerOptions) : Prop :=
  accepted argv o /\
  parseDomain w (domain_path o) = true /\
  parseProblem w (problem_path o) = true.

(** Too few arguments, or [parseArguments] returns [false]; the latter
    includes [-h]. *)
Definition argument_failure (argv : list string) : Prop :=
  (length argv < 3)%nat \/
  exists out o, parseArguments argv = Some (out, false, o).







(** [touch] tells, by name, the rows that may change some option; no row
    that matches one of [args] is among them. *)
Definition harmless (touch : string -> bool) (args : list string) : Prop :=
  forall a x, In a scanned_arguments -> In x args -> name a = x ->
              touch (name a) = false.

(** ** What the documentation of the driver promises *)

(** The bounds a search with step [S] tries, by the words of the help text
    of [-s]: [L], [L+S], [L+2S], ... up to the last one that is not above
    [U]. *)
Definition promised_bounds (L U S : Z) : list Z :=
  map (fun k => L + Z.of_nat k * S) (seq 0 (Z.to_nat ((U - L) / S + 1))).

(** An error of the command line as the design puts it: a message on
    standard error, the usage text, an exit code other than 0, and no work
    on the planning task. *)
Definition argument_error_reported (r : Run) (arg0 : string) : Prop :=
  existsb is_cerr (fst r) = true /\
  (exists pre, fst r = pre ++ printUsage arg0) /\
  (exists c, snd r = Exit c /\ c <> 0) /\
  existsb is_work (fst r) = false.


(** The naming switch as the design puts it: the readable names are on
    exactly when [-e] is among the arguments. *)
Definition naming_follows_flag (argv : list string) : Prop :=
  forall out o, parseArguments argv = Some (out, true, o) ->
    (explanatory_var_names o = true <-> In "-e" (skipn 3 argv)).

(** The row [argument[j]] for [j] below [number_of_arguments]. *)
Definition row (j : nat) : Argument :=
  nth j scanned_arguments (mkArgument "" false "").

(** ** Options as they are written on a command line *)

(** One option of a command line: a flag of the seven rows but [-h], with
    its value when the row takes one. *)
Inductive Item :=
| IPrune
| ILower (v : string)
| IRpg
| IUpper (v : string)
| IStep (v : string)
| IOutput (v : string).

Definition flag (it : Item) : string :=
  match it with
  | IPrune => "-p"
  | ILower _ => "-l"
  | IRpg => "-r"
  | IUpper _ => "-u"
  | IStep _ => "-s"
  | IOutput _ => "-o"
  end.

Definition value (it : Item) : option string :=
  match it with
  | IPrune | IRpg => None
  | ILower v | IUpper v | IStep v | IOutput v => Some v
  end.

(** The arguments an item takes up in [argv]. *)
Definition render (it : Item) : list string :=
  flag it :: match value it with Some v => [v] | None => [] end.

(** What the chain of [set_option] assigns for the item. *)
Definition assign (it : Item) (o : PlannerOptions) : PlannerOptions :=
  match it with
  | IPrune => set_prune true o
  | ILower v => set_lower_bound (atoi v) o
  | IRpg => set_rpg_lower_bound true o
  | IUpper v => set_upper_bound (atoi v) o
  | IStep v => set_step_size (atoi v) o
  | IOutput v => set_encoding_path v o
  end.

Definition assign_all (items : list Item) (o : PlannerOptions) : PlannerOptions :=
  fold_left (fun o it => assign it o) items o.

(** The rows the loop over [j] still has before it once it has matched the
    row named [f]. *)
Fixpoint rows_after (f : string) (rows : list Argument) : list Argument :=
  match rows with
  | [] => []
  | a :: rows' => if (name a =? f)%string then rows' else rows_after f rows'
  end.

(** [v], read as the value of [it], is also the name of a row that comes
    after the row of [it]. *)
Definition reread (it : Item) (v : string) : bool :=
  existsb (fun a => (name a =? v)%string)
          (rows_after (flag it) scanned_arguments).

(** An item whose value is not the name of a later row. *)
Definition plain (it : Item) : bool :=
  match value it with
  | Some v => negb (reread it v)
  | None => true
  end.

(** ** Ways out of the search loop *)

(** What the iteration with [i] happenings writes and asks for when the
    solver pipeline ends with status 0. *)
Definition solving_iteration (o : PlannerOptions) (i : Z) : list Event :=
  (if (encoding_path o =? "")%string then [] else [OpenFile (encoding_path o)])
  ++ [Encode (if (encoding_path o =? "")%string then ToStdout
              else ToFile (encoding_path o)) i;
      Fprintf "Encoded %i:\t%f seconds\n" [AInt i; ASeconds];
      System solver_command;
      Fprintf "Solved %i:\t%f seconds\n" [AInt i; ASeconds];
      Fprintf "Total time:\t%f seconds\n" [ASeconds]].

(** What an iteration leaves when its file does not open. *)
Definition refused_output (o : PlannerOptions) : list Event :=
  [OpenFile (encoding_path o);
   Cerr [AStr "Unable to open file for output: "; AStr (encoding_path o); AEndl]].

(** The line of the usage text for one option. *)
Definition usage_line (f h : string) : Event :=
  Fprintf "\t%s\t%s\n" [AStr f; AStr h].

(** The line [main] writes when the search passes the upper bound. *)
Definition is_no_plan (e : Event) : bool :=
  match e with
  | Cout (AStr "No plan found in " :: _) => true
  | _ => false
  end.

(** ** The handlers the loop over the table runs *)

(** A value an [int] can hold. *)
Definition is_int (z : Z) : Prop := INT_MIN <= z <= INT_MAX.

(** One run of a branch of the chain [if(argument[j].name == ...)]: the
    assignment it makes, with the value it reads from [argv[i]].  [ASkip]
    is the chain falling through for a name it has no branch for. *)
Inductive Action :=
| ALower (v : string)
| AUpper (v : string)
| AStep (v : string)
| AOutput (v : string)
| ANoSolve
| APrune
| ARpg
| AExplain
| ASkip.

(** The branch the chain takes for the row [a], [None] for the
    [return false] of [-h]. *)
Definition action_of (a : Argument) (v : string) : option Action :=
  if (name a =? "-h")%string then None
  else if (name a =? "-l")%string then Some (ALower v)
  else if (name a =? "-u")%string then Some (AUpper v)
  else if (name a =? "-s")%string then Some (AStep v)
  else if (name a =? "-o")%string then Some (AOutput v)
  else if (name a =? "-n")%string then Some ANoSolve
  else if (name a =? "-p")%string then Some APrune
  else if (name a =? "-r")%string then Some ARpg
  else if (name a =? "-e")%string then Some AExplain
  else Some ASkip.

Definition run_action (act : Action) (o : PlannerOptions) : PlannerOptions :=
  match act with
  | ALower v => set_lower_bound (atoi v) o
  | AUpper v => set_upper_bound (atoi v) o
  | AStep v => set_step_size (atoi v) o
  | AOutput v => set_encoding_path v o
  | ANoSolve => set_solve false o
  | APrune => set_prune true o
  | ARpg => set_rpg_lower_bound true o
  | AExplain => set_explanatory_var_names true o
  | ASkip => o
  end.

Definition run_actions (acts : list Action) (o : PlannerOptions) : PlannerOptions :=
  fold_left (fun o act => run_action act o) acts o.

(** The flag an action belongs to. *)
Definition action_flag (act : Action) : string :=
  match act with
  | ALower _ => "-l"
  | AUpper _ => "-u"
  | AStep _ => "-s"
  | AOutput _ => "-o"
  | ANoSolve => "-n"
  | APrune => "-p"
  | ARpg => "-r"
  | AExplain => "-e"
  | ASkip => ""
  end.

(** The option of the action holds what the action assigns. *)
Definition settled (act : Action) (o : PlannerOptions) : Prop :=
  match act with
  | ALower v => lower_bound o = atoi v
  | AUpper v => upper_bound o = atoi v
  | AStep v => step_size o = atoi v
  | AOutput v => encoding_path o = v
  | ANoSolve => solve o = false
  | APrune => prune o = true
  | ARpg => rpg_lower_bound o = true
  | AExplain => explanatory_var_names o = true
  | ASkip => True
  end.

(** The actions of one pass over the table, in the order they are run:
    the walk of [scan], with the branch taken in place of the options. *)
Fixpoint scan_actions (rows : list Argument) (cur : string)
    (rest : list string) : list Action :=
  match rows with
  | [] => []
  | a :: rows' =>
      if negb (name a =? cur)%string then scan_actions rows' cur rest
      else if has_value a then
        match rest with
        | [] => []
        | v :: rest' =>
            match action_of a v with
            | None => []
            | Some act => act :: scan_actions rows' v rest'
            end
        end
      else
        match action_of a cur with
        | None => []
        | Some act => act :: scan_actions rows' cur rest
        end
  end.

Definition turn_actions (args : list string) : list Action :=
  match args with
  | [] => []
  | cur :: rest => scan_actions scanned_arguments cur rest
  end.

(** The actions of the loop over the trailing arguments, turn after turn. *)
Fixpoint actions_loop (fuel : nat) (args : list string) (o : PlannerOptions)
  : list Action :=
  match turn args o with
  | TurnReturn _ _ _ => turn_actions args
  | TurnNext args' o' =>
      turn_actions args
      ++ match fuel with
         | O => []
         | S fuel' => actions_loop fuel' args' o'
         end
  end.

(** Every assignment [parseArguments] makes after the defaults, in the
    order it makes them: the occurrences of flags it acts on. *)
Definition actions (argv : list string) : list Action :=
  actions_loop (length argv) (skipn 3 argv) (defaults argv).

(** ** The loop over the option table *)

Lemma scan_miss rows cur rest found o :
  (forall b, In b rows -> (name b =? cur)%string = false) ->
  scan rows cur rest found o = ScanEnd cur rest found o.
Proof.
  induction rows as [|a rows IH]; intros Hmiss; [reflexivity|].
  cbn [scan]. rewrite (Hmiss a (or_introl eq_refl)). cbn [negb].
  apply IH. intros b Hb. apply Hmiss. now right.
Qed.

Lemma scan_skip rows1 rows2 cur rest found o :
  (forall b, In b rows1 -> (name b =? cur)%string = false) ->
  scan (rows1 ++ rows2) cur rest found o = scan rows2 cur rest found o.
Proof.
  induction rows1 as [|a rows1 IH]; intros Hmiss; [reflexivity|].
  cbn [app scan]. rewrite (Hmiss a (or_introl eq_refl)). cbn [negb].
  apply IH. intros b Hb. apply Hmiss. now right.
Qed.

Lemma scan_hit_value rows1 a rows2 cur v rest found o o1 :
  (forall b, In b rows1 -> (name b =? cur)%string = false) ->
  name a = cur ->
  has_value a = true ->
  set_option a v o = Some o1 ->
  scan (rows1 ++ a :: rows2) cur (v :: rest) found o
  = scan rows2 v rest true o1.
Proof.
  intros Hmiss <- Hval Hset. rewrite scan_skip by exact Hmiss.
  cbn [scan]. rewrite String.eqb_refl, Hval, Hset. reflexivity.
Qed.

Lemma scan_hit_plain rows1 a rows2 cur rest found o o1 :
  (forall b, In b rows1 -> (name b =? cur)%string = false) ->
  name a = cur ->
  has_value a = false ->
  set_option a cur o = Some o1 ->
  scan (rows1 ++ a :: rows2) cur rest found o
  = scan rows2 cur rest true o1.
Proof.
  intros Hmiss <- Hval Hset. rewrite scan_skip by exact Hmiss.
  cbn [scan]. rewrite String.eqb_refl, Hval, Hset. reflexivity.
Qed.

(** The cursor only moves forward. *)
Lemma scan_suffix rows : forall cur rest found o cur' rest' found' o',
  scan rows cur rest found o = ScanEnd cur' rest' found' o' ->
  exists pre, cur :: rest = pre ++ cur' :: rest'.
Proof.
  induction rows as [|a rows IH]; intros cur rest found o cur' rest' found' o' H.
  - cbn in H. injection H as -> -> _ _. now exists [].
  - cbn [scan] in H.
    destruct (name a =? cur)%string; cbn [negb] in H; [|now apply IH in H].
    destruct (has_value a).
    + destruct rest as [|v rest1]; [discriminate|].
      destruct (set_option a v o); [|discriminate].
      apply IH in H. destruct H as [pre Hpre].
      exists (cur :: pre). cbn. now rewrite Hpre.
    + destruct (set_option a cur o); [|discriminate].
      now apply IH in H.
Qed.

(** ** The loop over the trailing arguments *)

Lemma turn_next_suffix args o args' o' :
  turn args o = TurnNext args' o' ->
  exists pre, pre <> [] /\ args = pre ++ args'.
Proof.
  unfold turn. destruct args as [|cur rest]; [discriminate|].
  destruct (scan scanned_arguments cur rest false o)
    as [cur' rest' found o1|out o1] eqn:Hscan; [|discriminate].
  destruct found; cbn [negb]; [|discriminate].
  intros H. injection H as <- _.
  apply scan_suffix in Hscan. destruct Hscan as [pre Hpre].
  exists (pre ++ [cur']). split.
  - now destruct pre.
  - now rewrite <- app_assoc.
Qed.

Lemma turn_next_shorter args o args' o' :
  turn args o = TurnNext args' o' -> (length args' < length args)%nat.
Proof.
  intros H. apply turn_next_suffix in H. destruct H as (pre & Hne & ->).
  rewrite length_app. destruct pre; [congruence|]. cbn. lia.
Qed.

Lemma parse_loop_total fuel : forall args o,
  (length args <= fuel)%nat -> exists r, parse_loop fuel args o = Some r.
Proof.
  induction fuel as [|fuel IH]; intros args o Hlen; cbn [parse_loop].
  - destruct (turn args o) as [args' o'|out res o'] eqn:Hturn; [|eauto].
    apply turn_next_shorter in Hturn. lia.
  - destruct (turn args o) as [args' o'|out res o'] eqn:Hturn; [|eauto].
    apply IH. apply turn_next_shorter in Hturn. lia.
Qed.

Lemma parse_loop_enough fuel1 : forall fuel2 args o,
  (length args <= fuel1)%nat -> (length args <= fuel2)%nat ->
  parse_loop fuel1 args o = parse_loop fuel2 args o.
Proof.
  induction fuel1 as [|fuel1 IH]; intros fuel2 args o H1 H2.
  - destruct fuel2; cbn [parse_loop];
      destruct (turn args o) as [args' o'|out res o'] eqn:Hturn; try reflexivity;
      apply turn_next_shorter in Hturn; lia.
  - destruct fuel2; cbn [parse_loop];
      destruct (turn args o) as [args' o'|out res o'] eqn:Hturn; try reflexivity;
      apply turn_next_shorter in Hturn; try lia.
    apply IH; lia.
Qed.

Lemma parseArguments_total argv : exists r, parseArguments argv = Some r.
Proof.
  apply parse_loop_total. rewrite length_skipn. lia.
Qed.

(** After [n] turns the loop goes on as if it were entered there. *)
Lemma parse_loop_turns n : forall fuel args o args' o',
  turns n args o = Some (args', o') ->
  (length args <= fuel)%nat ->
  parse_loop fuel args o = parse_loop (length args') args' o'.
Proof.
  induction n as [|n IH]; intros fuel args o args' o' H Hlen; cbn [turns] in H.
  - injection H as <- <-. now apply parse_loop_enough.
  - destruct (turn args o) as [args1 o1|] eqn:Hturn; [|discriminate].
    pose proof (turn_next_shorter _ _ _ _ Hturn) as Hshort.
    destruct fuel as [|fuel]; [lia|].
    cbn [parse_loop]. rewrite Hturn. apply (IH _ _ _ _ _ H). lia.
Qed.

Lemma parseArguments_turns n argv args o :
  turns n (skipn 3 argv) (defaults argv) = Some (args, o) ->
  parseArguments argv = parse_loop (length args) args o.
Proof.
  intros H. unfold parseArguments. apply (parse_loop_turns n); [exact H|].
  rewrite length_skipn. lia.
Qed.

(** [parseArguments] writes nothing when it returns [true]. *)
Lemma parse_loop_quiet fuel : forall args o out o',
  parse_loop fuel args o = Some (out, true, o') -> out = [].
Proof.
  induction fuel as [|fuel IH]; intros args o out o' H; cbn [parse_loop] in H;
    destruct (turn args o) as [args1 o1|out1 res o1] eqn:Hturn;
    try discriminate; try (now apply IH in H).
  all: injection H as -> -> ->; unfold turn in Hturn;
    destruct args as [|cur rest]; [now injection Hturn as <- |];
    destruct (scan scanned_arguments cur rest false o) as [? ? [|] ?|? ?];
    cbn [negb] in Hturn; discriminate.
Qed.

(** ** Options that later arguments leave alone *)

Section Preservation.

(** [P] is a property of the options and [touch] tells the rows, by
    name, that may break it. *)
Variable P : PlannerOptions -> Prop.
Variable touch : string -> bool.
Hypothesis set_option_keeps : forall a v o o',
  touch (name a) = false -> set_option a v o = Some o' -> P o -> P o'.

Lemma scan_keeps rows : forall cur rest found o cur' rest' found' o',
  (forall a x, In a rows -> In x (cur :: rest) -> name a = x ->
               touch (name a) = false) ->
  scan rows cur rest found o = ScanEnd cur' rest' found' o' ->
  P o -> P o'.
Proof.
  induction rows as [|a rows IH];
    intros cur rest found o cur' rest' found' o' Hrows H HP.
  - cbn in H. now injection H as _ _ _ <-.
  - cbn [scan] in H.
    assert (Hrows' : forall b x, In b rows -> In x (cur :: rest) ->
                                 name b = x -> touch (name b) = false).
    { intros b x Hb. apply Hrows. now right. }
    destruct (name a =? cur)%string eqn:Hname; cbn [negb] in H;
      [|now apply (IH _ _ _ _ _ _ _ _ Hrows' H)].
    apply String.eqb_eq in Hname.
    assert (Ha : touch (name a) = false).
    { apply (Hrows a cur); [now left|now left|exact Hname]. }
    destruct (has_value a).
    + destruct rest as [|v rest1]; [discriminate|].
      destruct (set_option a v o) as [o1|] eqn:Hset; [|discriminate].
      refine (IH _ _ _ _ _ _ _ _ _ H (set_option_keeps _ _ _ _ Ha Hset HP)).
      intros b x Hb Hx. apply Hrows'; [exact Hb|now right].
    + destruct (set_option a cur o) as [o1|] eqn:Hset; [|discriminate].
      exact (IH _ _ _ _ _ _ _ _ Hrows' H (set_option_keeps _ _ _ _ Ha Hset HP)).
Qed.

Lemma turn_keeps args o args' o' :
  harmless touch args ->
  turn args o = TurnNext args' o' -> P o -> P o'.
Proof.
  unfold turn. intros Hargs. destruct args as [|cur rest]; [discriminate|].
  destruct (scan scanned_arguments cur rest false o)
    as [cur' rest' found o1|out o1] eqn:Hscan; [|discriminate].
  destruct found; cbn [negb]; [|discriminate].
  intros H HP. injection H as _ <-.
  exact (scan_keeps _ _ _ _ _ _ _ _ _ Hargs Hscan HP).
Qed.

Lemma parse_loop_keeps fuel : forall args o out o',
  harmless touch args ->
  parse_loop fuel args o = Some (out, true, o') -> P o -> P o'.
Proof.
  assert (Hreturn : forall args o out o',
             turn args o = TurnReturn out true o' -> o' = o).
  { intros args o out o'. unfold turn.
    destruct args as [|cur rest]; [now intros H; injection H|].
    destruct (scan scanned_arguments cur rest false o) as [? ? [|] ?|? ?];
      cbn [negb]; discriminate. }
  induction fuel as [|fuel IH]; intros args o out o' Hargs H HP;
    cbn [parse_loop] in H;
    destruct (turn args o) as [args1 o1|out1 res o1] eqn:Hturn;
    try discriminate.
  - injection H as -> -> ->. now rewrite (Hreturn _ _ _ _ Hturn).
  - refine (IH _ _ _ _ _ H (turn_keeps _ _ _ _ Hargs Hturn HP)).
    intros a x Ha Hx. apply Hargs; [exact Ha|].
    apply turn_next_suffix in Hturn. destruct Hturn as (pre & _ & ->).
    apply in_or_app. now right.
  - injection H as -> -> ->. now rewrite (Hreturn _ _ _ _ Hturn).
Qed.

Lemma harmless_by_args args :
  (forall x, In x args -> touch x = false) -> harmless touch args.
Proof. intros H a x _ Hx <-. now apply H. Qed.

Lemma harmless_by_rows args :
  (forall a, In a scanned_arguments -> touch (name a) = false) ->
  harmless touch args.
Proof. intros H a x Ha _ _. now apply H. Qed.

End Preservation.

Lemma set_option_inv a v o o' :
  set_option a v o = Some o' ->
  (name a = "-l" /\ o' = set_lower_bound (atoi v) o) \/
  (name a = "-u" /\ o' = set_upper_bound (atoi v) o) \/
  (name a = "-s" /\ o' = set_step_size (atoi v) o) \/
  (name a = "-o" /\ o' = set_encoding_path v o) \/
  (name a = "-n" /\ o' = set_solve false o) \/
  (name a = "-p" /\ o' = set_prune true o) \/
  (name a = "-r" /\ o' = set_rpg_lower_bound true o) \/
  (name a = "-e" /\ o' = set_explanatory_var_names true o) \/
  o' = o.
Proof.
  unfold set_option.
  repeat match goal with
  | |- context [if (name a =? ?f)%string then _ else _] =>
      destruct (String.eqb_spec (name a) f)
  end; intros H; try discriminate; injection H as <-; tauto.
Qed.

Ltac keep_field :=
  let a := fresh "a" in let v := fresh "v" in
  let o := fresh "o" in let o' := fresh "o'" in
  let Ht := fresh "Ht" in let Hs := fresh "Hs" in
  intros a v o o' Ht Hs;
  apply set_option_inv in Hs;
  repeat (destruct Hs as [[Hn ->]|Hs];
          [try (rewrite Hn in Ht; discriminate Ht); cbn; try tauto; auto|]);
  subst; auto.

Lemma keeps_lower_bound z a v o o' :
  ("-l" =? name a)%string = false -> set_option a v o = Some o' ->
  lower_bound o = z -> lower_bound o' = z.
Proof. revert a v o o'. keep_field. Qed.

Lemma keeps_upper_bound z a v o o' :
  ("-u" =? name a)%string = false -> set_option a v o = Some o' ->
  upper_bound o = z -> upper_bound o' = z.
Proof. revert a v o o'. keep_field. Qed.

Lemma keeps_step_size z a v o o' :
  ("-s" =? name a)%string = false -> set_option a v o = Some o' ->
  step_size o = z -> step_size o' = z.
Proof. revert a v o o'. keep_field. Qed.

Lemma keeps_encoding_path z a v o o' :
  ("-o" =? name a)%string = false -> set_option a v o = Some o' ->
  encoding_path o = z -> encoding_path o' = z.
Proof. revert a v o o'. keep_field. Qed.

Lemma keeps_rpg_off a v o o' :
  ("-r" =? name a)%string = false -> set_option a v o = Some o' ->
  rpg_lower_bound o = false -> rpg_lower_bound o' = false.
Proof. revert a v o o'. keep_field. Qed.

Lemma keeps_prune_on a v o o' :
  false = false -> set_option a v o = Some o' ->
  prune o = true -> prune o' = true.
Proof. revert a v o o'. keep_field. Qed.

Lemma keeps_rpg_on a v o o' :
  false = false -> set_option a v o = Some o' ->
  rpg_lower_bound o = true -> rpg_lower_bound o' = true.
Proof. revert a v o o'. keep_field. Qed.

Lemma keeps_explanatory_on a v o o' :
  false = false -> set_option a v o = Some o' ->
  explanatory_var_names o = true -> explanatory_var_names o' = true.
Proof. revert a v o o'. keep_field. Qed.

(** ** A flag met by the loop over the trailing arguments *)

Lemma suffix_tail {A} (v : A) rest pre cur' rest' :
  v :: rest = pre ++ cur' :: rest' -> exists pre', rest = pre' ++ rest'.
Proof.
  destruct pre as [|x pre]; cbn; intros H; injection H as _ ->.
  - now exists [].
  - exists (pre ++ [cur']). now rewrite <- app_assoc.
Qed.

Lemma not_in_suffix {A} (f : A) pre rest :
  ~ In f (pre ++ rest) -> ~ In f rest.
Proof. intros H Hin. apply H, in_or_app. now right. Qed.

Lemma untouched (f : string) (args : list string) :
  ~ In f args -> forall x, In x args -> (f =? x)%string = false.
Proof.
  intros Hnot x Hx. destruct (String.eqb_spec f x); [subst; contradiction|reflexivity].
Qed.

(** A turn that starts on a flag with a value: the rows before the flag's
    row are passed, the row assigns the value, and the rows after it are
    compared with the value. *)
Lemma turn_value rows1 a rows2 v rest o args' o' :
  scanned_arguments = rows1 ++ a :: rows2 ->
  (forall b, In b rows1 -> (name b =? name a)%string = false) ->
  has_value a = true ->
  turn (name a :: v :: rest) o = TurnNext args' o' ->
  exists o1 cur' found,
    set_option a v o = Some o1 /\
    scan rows2 v rest true o1 = ScanEnd cur' args' found o' /\
    exists pre, rest = pre ++ args'.
Proof.
  intros Hrows Hmiss Hval. unfold turn. rewrite Hrows.
  destruct (set_option a v o) as [o1|] eqn:Hset.
  - rewrite (scan_hit_value _ _ _ _ _ _ _ _ o1 Hmiss eq_refl Hval Hset).
    destruct (scan rows2 v rest true o1) as [cur' rest' found o2|] eqn:Hscan;
      [|discriminate].
    destruct found; cbn [negb]; [|discriminate].
    intros H. injection H as <- <-.
    exists o1, cur', true. repeat split; [assumption|].
    apply scan_suffix in Hscan. destruct Hscan as [pre Hpre].
    exact (suffix_tail _ _ _ _ _ Hpre).
  - rewrite scan_skip by exact Hmiss. cbn [scan].
    rewrite String.eqb_refl, Hval, Hset. discriminate.
Qed.

Lemma turn_plain rows1 a rows2 rest o args' o' :
  scanned_arguments = rows1 ++ a :: rows2 ->
  (forall b, In b rows1 -> (name b =? name a)%string = false) ->
  has_value a = false ->
  turn (name a :: rest) o = TurnNext args' o' ->
  exists o1 cur' found,
    set_option a (name a) o = Some o1 /\
    scan rows2 (name a) rest true o1 = ScanEnd cur' args' found o'.
Proof.
  intros Hrows Hmiss Hval. unfold turn. rewrite Hrows.
  destruct (set_option a (name a) o) as [o1|] eqn:Hset.
  - rewrite (scan_hit_plain _ _ _ _ _ _ _ o1 Hmiss eq_refl Hval Hset).
    destruct (scan rows2 (name a) rest true o1) as [cur' rest' found o2|] eqn:Hscan;
      [|discriminate].
    destruct found; cbn [negb]; [|discriminate].
    intros H. injection H as <- <-.
    exists o1, cur', true. now split.
  - rewrite scan_skip by exact Hmiss. cbn [scan].
    rewrite String.eqb_refl, Hval, Hset. discriminate.
Qed.

(** A turn that returns [true] is the one that finds the cursor at the
    end. *)
Lemma parse_loop_accepts fuel cur rest o out o' :
  parse_loop fuel (cur :: rest) o = Some (out, true, o') ->
  exists args1 o1 fuel1,
    turn (cur :: rest) o = TurnNext args1 o1 /\
    parse_loop fuel1 args1 o1 = Some (out, true, o').
Proof.
  destruct fuel as [|fuel]; cbn [parse_loop];
    destruct (turn (cur :: rest) o) as [args1 o1|out1 res o1] eqn:Hturn;
    intros H; try discriminate.
  - exfalso. unfold turn in Hturn.
    destruct (scan scanned_arguments cur rest false o) as [? ? [|] ?|? ?];
      cbn [negb] in Hturn; try discriminate;
      injection Hturn as _ <- _; now injection H.
  - now exists args1, o1, fuel.
  - exfalso. unfold turn in Hturn.
    destruct (scan scanned_arguments cur rest false o) as [? ? [|] ?|? ?];
      cbn [negb] in Hturn; try discriminate;
      injection Hturn as _ <- _; now injection H.
Qed.

Ltac rows_apart :=
  let b := fresh "b" in let Hb := fresh "Hb" in
  intros b Hb; cbn in Hb;
  repeat (destruct Hb as [<-|Hb]; [reflexivity|]); contradiction.

Ltac rows_untouched :=
  let b := fresh "b" in let x := fresh "x" in let Hb := fresh "Hb" in
  intros b x Hb _ _; cbn in Hb;
  repeat (destruct Hb as [<-|Hb]; [reflexivity|]); contradiction.

Lemma last_lower_bound fuel v rest o out o' :
  ~ In "-l" rest ->
  parse_loop fuel ("-l" :: v :: rest) o = Some (out, true, o') ->
  lower_bound o' = atoi v.
Proof.
  intros Hlast H. apply parse_loop_accepts in H.
  destruct H as (args1 & o1 & fuel1 & Hturn & Hrest).
  apply (turn_value (firstn 2 scanned_arguments) (row 2)
           (skipn 3 scanned_arguments))
    in Hturn; [|reflexivity|rows_apart|reflexivity].
  destruct Hturn as (o2 & cur' & found & Hset & Hscan & pre & ->).
  change (Some (set_lower_bound (atoi v) o) = Some o2) in Hset.
  injection Hset as <-.
  refine (parse_loop_keeps _ _ (keeps_lower_bound (atoi v)) _ _ _ _ _
            (harmless_by_args _ _ (untouched _ _ (not_in_suffix _ _ _ Hlast)))
            Hrest _).
  refine (scan_keeps _ _ (keeps_lower_bound (atoi v)) _ _ _ _ _ _ _ _ _ _
            Hscan eq_refl).
  rows_untouched.
Qed.

Lemma last_upper_bound fuel v rest o out o' :
  ~ In "-u" rest ->
  parse_loop fuel ("-u" :: v :: rest) o = Some (out, true, o') ->
  upper_bound o' = atoi v.
Proof.
  intros Hlast H. apply parse_loop_accepts in H.
  destruct H as (args1 & o1 & fuel1 & Hturn & Hrest).
  apply (turn_value (firstn 4 scanned_arguments) (row 4)
           (skipn 5 scanned_arguments))
    in Hturn; [|reflexivity|rows_apart|reflexivity].
  destruct Hturn as (o2 & cur' & found & Hset & Hscan & pre & ->).
  change (Some (set_upper_bound (atoi v) o) = Some o2) in Hset.
  injection Hset as <-.
  refine (parse_loop_keeps _ _ (keeps_upper_bound (atoi v)) _ _ _ _ _
            (harmless_by_args _ _ (untouched _ _ (not_in_suffix _ _ _ Hlast)))
            Hrest _).
  refine (scan_keeps _ _ (keeps_upper_bound (atoi v)) _ _ _ _ _ _ _ _ _ _
            Hscan eq_refl).
  rows_untouched.
Qed.

Lemma last_step_size fuel v rest o out o' :
  ~ In "-s" rest ->
  parse_loop fuel ("-s" :: v :: rest) o = Some (out, true, o') ->
  step_size o' = atoi v.
Proof.
  intros Hlast H. apply parse_loop_accepts in H.
  destruct H as (args1 & o1 & fuel1 & Hturn & Hrest).
  apply (turn_value (firstn 5 scanned_arguments) (row 5)
           (skipn 6 scanned_arguments))
    in Hturn; [|reflexivity|rows_apart|reflexivity].
  destruct Hturn as (o2 & cur' & found & Hset & Hscan & pre & ->).
  change (Some (set_step_size (atoi v) o) = Some o2) in Hset.
  injection Hset as <-.
  refine (parse_loop_keeps _ _ (keeps_step_size (atoi v)) _ _ _ _ _
            (harmless_by_args _ _ (untouched _ _ (not_in_suffix _ _ _ Hlast)))
            Hrest _).
  refine (scan_keeps _ _ (keeps_step_size (atoi v)) _ _ _ _ _ _ _ _ _ _
            Hscan eq_refl).
  rows_untouched.
Qed.

Lemma last_encoding_path fuel v rest o out o' :
  ~ In "-o" rest ->
  parse_loop fuel ("-o" :: v :: rest) o = Some (out, true, o') ->
  encoding_path o' = v.
Proof.
  intros Hlast H. apply parse_loop_accepts in H.
  destruct H as (args1 & o1 & fuel1 & Hturn & Hrest).
  apply (turn_value (firstn 6 scanned_arguments) (row 6)
           (skipn 7 scanned_arguments))
    in Hturn; [|reflexivity|rows_apart|reflexivity].
  destruct Hturn as (o2 & cur' & found & Hset & Hscan & pre & ->).
  change (Some (set_encoding_path v o) = Some o2) in Hset.
  injection Hset as <-.
  refine (parse_loop_keeps _ _ (keeps_encoding_path v) _ _ _ _ _
            (harmless_by_args _ _ (untouched _ _ (not_in_suffix _ _ _ Hlast)))
            Hrest _).
  refine (scan_keeps _ _ (keeps_encoding_path v) _ _ _ _ _ _ _ _ _ _
            Hscan eq_refl).
  rows_untouched.
Qed.

Lemma met_prune fuel rest o out o' :
  parse_loop fuel ("-p" :: rest) o = Some (out, true, o') ->
  prune o' = true.
Proof.
  intros H. apply parse_loop_accepts in H.
  destruct H as (args1 & o1 & fuel1 & Hturn & Hrest).
  apply (turn_plain (firstn 1 scanned_arguments) (row 1)
           (skipn 2 scanned_arguments))
    in Hturn; [|reflexivity|rows_apart|reflexivity].
  destruct Hturn as (o2 & cur' & found & Hset & Hscan).
  change (Some (set_prune true o) = Some o2) in Hset.
  injection Hset as <-.
  refine (parse_loop_keeps _ (fun _ => false) keeps_prune_on _ _ _ _ _
            (harmless_by_args _ _ (fun _ _ => eq_refl)) Hrest _).
  refine (scan_keeps _ (fun _ => false) keeps_prune_on _ _ _ _ _ _ _ _ _ _
            Hscan eq_refl).
  reflexivity.
Qed.

Lemma met_rpg_lower_bound fuel rest o out o' :
  parse_loop fuel ("-r" :: rest) o = Some (out, true, o') ->
  rpg_lower_bound o' = true.
Proof.
  intros H. apply parse_loop_accepts in H.
  destruct H as (args1 & o1 & fuel1 & Hturn & Hrest).
  apply (turn_plain (firstn 3 scanned_arguments) (row 3)
           (skipn 4 scanned_arguments))
    in Hturn; [|reflexivity|rows_apart|reflexivity].
  destruct Hturn as (o2 & cur' & found & Hset & Hscan).
  change (Some (set_rpg_lower_bound true o) = Some o2) in Hset.
  injection Hset as <-.
  refine (parse_loop_keeps _ (fun _ => false) keeps_rpg_on _ _ _ _ _
            (harmless_by_args _ _ (fun _ _ => eq_refl)) Hrest _).
  refine (scan_keeps _ (fun _ => false) keeps_rpg_on _ _ _ _ _ _ _ _ _ _
            Hscan eq_refl).
  reflexivity.
Qed.

(** ** The search loop *)

Lemma prepend_prepend tr1 tr2 (r : Run) :
  tr1 +> tr2 +> r = (tr1 ++ tr2) +> r.
Proof. unfold prepend. cbn. now rewrite app_assoc. Qed.

Lemma snd_prepend tr (r : Run) : snd (tr +> r) = snd r.
Proof. reflexivity. Qed.

Lemma exit_code_prepend tr (r : Run) : exit_code (tr +> r) = exit_code r.
Proof. reflexivity. Qed.

Lemma set_output_opens w o i :
  opens w o i = true ->
  set_output w o i =
  (if (encoding_path o =? "")%string then [] else [OpenFile (encoding_path o)],
   Some (if (encoding_path o =? "")%string then ToStdout
         else ToFile (encoding_path o))).
Proof.
  unfold opens, set_output. destruct (encoding_path o =? "")%string; cbn.
  - reflexivity.
  - now intros ->.
Qed.

Lemma set_output_fails w o i :
  opens w o i = false ->
  set_output w o i =
  ([OpenFile (encoding_path o);
    Cerr [AStr "Unable to open file for output: "; AStr (encoding_path o); AEndl]],
   None).
Proof.
  unfold opens, set_output. destruct (encoding_path o =? "")%string; cbn.
  - discriminate.
  - now intros ->.
Qed.

(** An iteration that is not solved hands over to the next bound. *)
Lemma search_loop_next fuel w o i :
  within_bound o i = true ->
  opens w o i = true ->
  system w solver_command i <> 0 ->
  i < INT_MAX ->
  search_loop (S fuel) w o i = iteration o i +> search_loop fuel w o (i + 1).
Proof.
  intros Hin Hopen Hst Hmax. cbn [search_loop].
  rewrite Hin, (set_output_opens _ _ _ Hopen).
  apply Z.eqb_neq in Hst. rewrite Hst.
  apply Z.ltb_lt in Hmax. rewrite Hmax.
  unfold iteration. rewrite !prepend_prepend, <- app_assoc. reflexivity.
Qed.

(** How a turn of the search loop ends. *)
Lemma search_loop_ending fuel w o i :
  snd (search_loop (S fuel) w o i) =
  if within_bound o i then
    if opens w o i then
      if system w solver_command i =? 0 then Exit 0
      else if i <? INT_MAX then snd (search_loop fuel w o (i + 1))
           else SignedOverflow
    else Exit 1
  else Exit 0.
Proof.
  cbn [search_loop]. destruct (within_bound o i); [|reflexivity].
  destruct (opens w o i) eqn:Hopen.
  - rewrite (set_output_opens _ _ _ Hopen). rewrite snd_prepend.
    destruct (system w solver_command i =? 0); [reflexivity|].
    rewrite snd_prepend. now destruct (i <? INT_MAX).
  - now rewrite (set_output_fails _ _ _ Hopen).
Qed.

Lemma unsolved_next w o L i :
  unsolved w o L i ->
  within_bound o i = true -> opens w o i = true ->
  system w solver_command i <> 0 ->
  unsolved w o L (i + 1).
Proof.
  intros Hun Hin Hopen Hst k Hk.
  destruct (Z.eq_dec k i) as [->|Hne]; [auto|]. apply Hun. lia.
Qed.

(** A search loop that returns has met one of the three ways out. *)
Lemma search_loop_exit w o L fuel : forall i c,
  L <= i <= INT_MAX ->
  unsolved w o L i ->
  snd (search_loop fuel w o i) = Exit c ->
  (c = 1 /\ exists j, output_fails_at w o L j) \/
  (c = 0 /\ ((exists j, solved_at w o L j) \/ exhausted w o L)).
Proof.
  induction fuel as [|fuel IH]; intros i c Hi Hun H; [discriminate|].
  rewrite search_loop_ending in H.
  destruct (within_bound o i) eqn:Hin.
  - destruct (opens w o i) eqn:Hopen.
    + destruct (system w solver_command i =? 0) eqn:Hst.
      * injection H as <-. right. split; [reflexivity|]. left. exists i.
        apply Z.eqb_eq in Hst. unfold solved_at. auto.
      * apply Z.eqb_neq in Hst.
        destruct (i <? INT_MAX) eqn:Hmax; [|discriminate].
        apply Z.ltb_lt in Hmax. apply (IH (i + 1)); [lia| |exact H].
        now apply unsolved_next.
    + injection H as <-. left. split; [reflexivity|]. exists i.
      unfold output_fails_at. auto.
  - injection H as <-. right. split; [reflexivity|]. right.
    unfold within_bound in Hin. apply orb_false_iff in Hin.
    destruct Hin as [Hneg Hgt]. apply Z.ltb_ge in Hneg. apply Z.leb_gt in Hgt.
    unfold exhausted. split; [exact Hneg|]. split; [lia|].
    intros k Hk. apply Hun. lia.
Qed.

(** [n] unsolved iterations in a row. *)
Lemma search_loop_iterations w o n : forall fuel i,
  unsolved w o i (i + Z.of_nat n) ->
  i + Z.of_nat n <= INT_MAX ->
  search_loop (n + fuel) w o i
  = iterations o n i +> search_loop fuel w o (i + Z.of_nat n).
Proof.
  induction n as [|n IH]; intros fuel i Hun Hmax.
  - cbn [iterations Nat.add Z.of_nat]. rewrite Z.add_0_r.
    unfold prepend. now destruct (search_loop fuel w o i).
  - destruct (Hun i ltac:(lia)) as (Hin & Hopen & Hst).
    cbn [Nat.add iterations].
    rewrite search_loop_next; [|assumption|assumption|assumption|lia].
    rewrite IH.
    + rewrite prepend_prepend. do 2 f_equal. lia.
    + intros k Hk. apply Hun. lia.
    + lia.
Qed.



Lemma search_loop_reaches w o L i fuel :
  L <= i <= INT_MAX ->
  unsolved w o L i ->
  search_loop (Z.to_nat (i - L) + fuel) w o L
  = iterations o (Z.to_nat (i - L)) L +> search_loop fuel w o i.
Proof.
  intros Hi Hun.
  replace i with (L + Z.of_nat (Z.to_nat (i - L))) at 3 by lia.
  apply search_loop_iterations; [|lia].
  intros k Hk. apply Hun. lia.
Qed.



Lemma past_upper_bound o i :
  0 <= upper_bound o < i -> within_bound o i = false.
Proof.
  intros H. unfold within_bound. apply orb_false_iff. split.
  - apply Z.ltb_ge. lia.
  - apply Z.leb_gt. lia.
Qed.

Lemma exhausted_exit w o L :
  exhausted w o L ->
  exit_code (search_loop (Z.to_nat (upper_bound o + 1 - L) + 1) w o L) = Some 0.
Proof.
  intros (Hup & Hmax & Hun).
  destruct (Z_le_gt_dec L (upper_bound o)) as [Hle|Hgt].
  - rewrite (search_loop_reaches w o L (upper_bound o + 1)); [|lia|exact Hun].
    rewrite exit_code_prepend. unfold exit_code.
    rewrite search_loop_ending, past_upper_bound; [reflexivity|lia].
  - replace (Z.to_nat (upper_bound o + 1 - L)) with O by lia.
    unfold exit_code. cbn [Nat.add].
    rewrite search_loop_ending, past_upper_bound; [reflexivity|lia].
Qed.


(** ** main *)

Lemma prepend_nil (r : Run) : [] +> r = r.
Proof. now destruct r. Qed.


Lemma main_accepted fuel w argv o :
  accepted argv o -> main fuel w argv = plan fuel w o.
Proof.
  intros [Hlen H]. unfold main.
  apply Nat.ltb_ge in Hlen. rewrite Hlen, H. apply prepend_nil.
Qed.

Lemma plan_parsed fuel w o :
  parseDomain w (domain_path o) = true ->
  parseProblem w (problem_path o) = true ->
  plan fuel w o
  = startup w o +>
    search_loop fuel w (search_options w o) (lower_bound (search_options w o)).
Proof. unfold plan. now intros -> ->. Qed.

Lemma main_parsed fuel w argv o :
  parsed w argv o ->
  main fuel w argv
  = startup w o +>
    search_loop fuel w (search_options w o) (lower_bound (search_options w o)).
Proof.
  intros (Hacc & Hd & Hp). rewrite (main_accepted _ _ _ _ Hacc).
  now apply plan_parsed.
Qed.






(** ** What the parts of a run leave in the trace *)

Lemma filter_map_app {A B} (f : A -> option B) l1 l2 :
  filter_map f (l1 ++ l2) = filter_map f l1 ++ filter_map f l2.
Proof.
  induction l1 as [|x l1 IH]; [reflexivity|].
  cbn. destruct (f x); cbn; now rewrite IH.
Qed.

Lemma visited_prepend tr (r : Run) :
  visited (tr +> r) = filter_map encoded tr ++ visited r.
Proof. apply filter_map_app. Qed.

Lemma destinations_prepend tr (r : Run) :
  destinations (tr +> r) = filter_map destination tr ++ destinations r.
Proof. apply filter_map_app. Qed.

Lemma visited_iteration o i : filter_map encoded (iteration o i) = [i].
Proof. unfold iteration. now destruct (encoding_path o =? "")%string. Qed.

Lemma visited_iterations o n : forall i,
  filter_map encoded (iterations o n i) = counting n i.
Proof.
  induction n as [|n IH]; intros i; [reflexivity|].
  cbn [iterations counting]. now rewrite filter_map_app, visited_iteration, IH.
Qed.

(** What [parseArguments] writes: nothing, or one of its two messages. *)
Lemma scan_return_out rows : forall cur rest found o out o',
  scan rows cur rest found o = ScanReturn out o' ->
  out = [] \/
  exists f, out = [Fprintf "\nExpected value for option %s\n\n" [AStr f]].
Proof.
  induction rows as [|a rows IH]; intros cur rest found o out o' H.
  - discriminate.
  - cbn [scan] in H.
    destruct (name a =? cur)%string; cbn [negb] in H; [|now apply IH in H].
    destruct (has_value a).
    + destruct rest as [|v rest1].
      * injection H as <- _. right. now exists cur.
      * destruct (set_option a v o); [now apply IH in H|].
        injection H as <- _. now left.
    + destruct (set_option a cur o); [now apply IH in H|].
      injection H as <- _. now left.
Qed.

Lemma parse_loop_out fuel : forall args o out res o',
  parse_loop fuel args o = Some (out, res, o') ->
  out = [] \/
  (exists f, out = [Fprintf "\nExpected value for option %s\n\n" [AStr f]]) \/
  (exists x, out = [Cerr [AStr "Unrecognised argument: "; AStr x; AEndl]]).
Proof.
  assert (Hturn : forall args o out res o',
             turn args o = TurnReturn out res o' ->
             out = [] \/
             (exists f, out = [Fprintf "\nExpected value for option %s\n\n" [AStr f]]) \/
             (exists x, out = [Cerr [AStr "Unrecognised argument: "; AStr x; AEndl]])).
  { intros args o out res o'. unfold turn.
    destruct args as [|cur rest]; [intros H; injection H as <- _ _; now left|].
    destruct (scan scanned_arguments cur rest false o)
      as [cur' rest' [|] o1|out1 o1] eqn:Hscan; cbn [negb]; intros H;
      try discriminate.
    - injection H as <- _ _. right. right. now exists cur'.
    - injection H as <- _ _. apply scan_return_out in Hscan. tauto. }
  induction fuel as [|fuel IH]; intros args o out res o' H;
    cbn [parse_loop] in H;
    destruct (turn args o) as [args1 o1|out1 res1 o1] eqn:Ht;
    try discriminate; try (now apply IH in H);
    injection H as <- <- <-; exact (Hturn _ _ _ _ _ Ht).
Qed.

(** The search loop reads two of the options: the upper bound and the
    encoding path. *)
Lemma search_loop_reads w o1 o2 fuel : forall i,
  upper_bound o1 = upper_bound o2 ->
  encoding_path o1 = encoding_path o2 ->
  search_loop fuel w o1 i = search_loop fuel w o2 i.
Proof.
  induction fuel as [|fuel IH]; intros i Hup Hpath; [reflexivity|].
  cbn [search_loop]. unfold within_bound, set_output.
  now rewrite Hup, Hpath, (IH (i + 1) Hup Hpath).
Qed.

(** The status at a bound the loop has left behind is not read again. *)
Lemma search_loop_past_status w o i st fuel : forall j,
  i < j ->
  search_loop fuel (with_status i st w) o j = search_loop fuel w o j.
Proof.
  induction fuel as [|fuel IH]; intros j Hj; [reflexivity|].
  cbn [search_loop]. unfold set_output. cbn [with_status file_opens system].
  replace (j =? i) with false by (symmetry; apply Z.eqb_neq; lia).
  now rewrite (IH (j + 1)) by lia.
Qed.

(** Where the formula documents of a search go. *)
Lemma search_loop_destinations w o fuel : forall i,
  Forall (eq (if (encoding_path o =? "")%string then ToStdout
              else ToFile (encoding_path o)))
         (destinations (search_loop fuel w o i)).
Proof.
  induction fuel as [|fuel IH]; intros i; [constructor|].
  cbn [search_loop]. destruct (within_bound o i); [|constructor].
  unfold set_output.
  destruct (encoding_path o =? "")%string eqn:Hpath.
  - rewrite destinations_prepend. cbn [app filter_map destination].
    constructor; [reflexivity|].
    destruct (system w solver_command i =? 0); [constructor|].
    rewrite destinations_prepend. cbn [app filter_map destination].
    destruct (i <? INT_MAX); [|constructor].
    exact (IH (i + 1)).
  - destruct (file_opens w (encoding_path o) i); [|constructor].
    rewrite destinations_prepend. cbn [app filter_map destination].
    constructor; [reflexivity|].
    destruct (system w solver_command i =? 0); [constructor|].
    rewrite destinations_prepend. cbn [app filter_map destination].
    destruct (i <? INT_MAX); [|constructor].
    exact (IH (i + 1)).
Qed.

Lemma keeps_solve_on a v o o' :
  ("-n" =? name a)%string = false -> set_option a v o = Some o' ->
  solve o = true -> solve o' = true.
Proof. revert a v o o'. keep_field. Qed.

Lemma scanned_without_n a :
  In a scanned_arguments -> ("-n" =? name a)%string = false.
Proof.
  intros Ha. cbn in Ha.
  repeat (destruct Ha as [<-|Ha]; [reflexivity|]). contradiction.
Qed.

(** Whatever the arguments, accepted options have [solve] and
    [explanatory_var_names] as the defaults set them. *)
Lemma accepted_solve_explanatory argv out o :
  parseArguments argv = Some (out, true, o) ->
  solve o = true /\ explanatory_var_names o = true.
Proof.
  intros H. split.
  - refine (parse_loop_keeps _ _ keeps_solve_on _ _ _ _ _
              (harmless_by_rows _ _ scanned_without_n) H eq_refl).
  - refine (parse_loop_keeps _ (fun _ => false) keeps_explanatory_on _ _ _ _ _
              (harmless_by_args _ _ (fun _ _ => eq_refl)) H eq_refl).
Qed.

(** ** The bounds the search tries *)

(** What the loop does with a bounded search that finds nothing: it tries
    every bound from the first to the upper one, whatever the step size. *)
Lemma search_visits_every_bound w argv o :
  parsed w argv o ->
  0 <= upper_bound (search_options w o) ->
  lower_bound (search_options w o) <= upper_bound (search_options w o) < INT_MAX ->
  unsolved w (search_options w o) (lower_bound (search_options w o))
           (upper_bound (search_options w o) + 1) ->
  let n := Z.to_nat (upper_bound (search_options w o) + 1
                     - lower_bound (search_options w o)) in
  visited (main (n + 1) w argv) = counting n (lower_bound (search_options w o)) /\
  exit_code (main (n + 1) w argv) = Some 0.
Proof.
  intros Hparsed Hup Hbounds Hun n. rewrite (main_parsed _ _ _ _ Hparsed). split.
  - rewrite visited_prepend. cbn [filter_map startup encoded app].
    unfold n. rewrite search_loop_reaches; [|lia|exact Hun].
    rewrite visited_prepend, visited_iterations.
    cbn [search_loop]. rewrite past_upper_bound by lia. apply app_nil_r.
  - rewrite exit_code_prepend. apply exhausted_exit.
    unfold exhausted. split; [exact Hup|]. split; [lia|exact Hun].
Qed.

(** C1 (defect of the code): with [-l 1 -u 3 -s 2] and a solver that never
    accepts, the help text of [-s] promises the bounds 1 and 3; the loop
    advances with [i++] and encodes at 1, 2 and 3 before it reports that
    there is no plan. *)
Theorem step_size_not_applied :
  let w := plain_world 1 (fun _ => false) 1 in
  let argv := command_line ["-l"; "1"; "-u"; "3"; "-s"; "2"] in
  (exists o, accepted argv o /\
             lower_bound o = 1 /\ upper_bound o = 3 /\ step_size o = 2) /\
  promised_bounds 1 3 2 = [1; 3] /\
  visited (main 4 w argv) = [1; 2; 3] /\
  exit_code (main 4 w argv) = Some 0.
Proof.
  cbv zeta. split; [|repeat split].
  eexists. split; [split; [cbn; lia|vm_compute; reflexivity]|].
  repeat split.
Qed.

(** C2 (defect of the code): [-n] is the eighth row of the table and the
    loops stop after the seventh, so [-n] is answered as an unrecognised
    argument: usage, exit code 1 and no encoding at all.  The search loop
    does not read [solve] either. *)
Theorem emit_only_flag_rejected :
  let w := plain_world 1 (fun _ => true) 0 in
  let argv := command_line ["-n"] in
  main 1 w argv
  = (Cerr [AStr "Unrecognised argument: "; AStr "-n"; AEndl]
       :: printUsage "SMTPlan", Exit 1) /\
  visited (main 1 w argv) = [] /\
  (forall fuel w o i,
     search_loop fuel w (set_solve false o) i = search_loop fuel w o i) /\
  (forall argv out o, parseArguments argv = Some (out, true, o) -> solve o = true).
Proof.
  cbv zeta. split; [reflexivity|]. split; [reflexivity|]. split.
  - intros fuel w o i. now apply search_loop_reads.
  - intros argv out o H. now apply (accepted_solve_explanatory _ _ _ H).
Qed.

(** C3 (defect of the code): [main] assigns test.smt2 to the encoding path
    right before the search loop, so every formula document goes to that
    file: a path given with [-o] is parsed and then dropped, and without
    [-o] nothing goes to standard output. *)
Theorem formula_always_in_test_smt2 :
  (forall fuel w argv,
     Forall (eq (ToFile "test.smt2")) (destinations (main fuel w argv))) /\
  (let w := plain_world 1 (fun _ => true) 0 in
   (exists o, accepted (command_line ["-o"; "out.smt2"]) o /\
              encoding_path o = "out.smt2") /\
   destinations (main 1 w (command_line ["-o"; "out.smt2"]))
   = [ToFile "test.smt2"] /\
   (exists o, accepted (command_line []) o /\ encoding_path o = "") /\
   destinations (main 1 w (command_line [])) = [ToFile "test.smt2"]).
Proof.
  split.
  - intros fuel w argv. unfold main.
    destruct (length argv <? 3)%nat; [constructor|].
    destruct (parseArguments argv) as [[[out res] o]|] eqn:Hparse; [|constructor].
    assert (Hout : filter_map destination out = []).
    { apply parse_loop_out in Hparse.
      destruct Hparse as [->|[[f ->]|[x ->]]]; reflexivity. }
    destruct res.
    + rewrite destinations_prepend, Hout. cbn [app]. unfold plan.
      destruct (negb (parseDomain w (domain_path o))); [constructor|].
      destruct (negb (parseProblem w (problem_path o))); [constructor|].
      rewrite destinations_prepend. cbn [filter_map destination app].
      apply (search_loop_destinations w (search_options w o)).
    + unfold destinations. cbn [fst]. rewrite filter_map_app, Hout.
      constructor.
  - cbv zeta. repeat split.
    + eexists. split; [split; [cbn; lia|vm_compute; reflexivity]|reflexivity].
    + eexists. split; [split; [cbn; lia|vm_compute; reflexivity]|reflexivity].
Qed.

(** ** Values an int can hold *)

Lemma atoi_int s : is_int (atoi s).
Proof.
  unfold is_int, atoi, int_of_long, INT_MIN, INT_MAX.
  pose proof (Z.mod_pos_bound (strtol s + 2147483648) 4294967296 eq_refl).
  lia.
Qed.

Lemma keeps_int_bounds a v o o' :
  false = false -> set_option a v o = Some o' ->
  is_int (lower_bound o) /\ is_int (upper_bound o) /\ is_int (step_size o) ->
  is_int (lower_bound o') /\ is_int (upper_bound o') /\ is_int (step_size o').
Proof.
  intros _ Hs (Hl & Hu & Hst). apply set_option_inv in Hs.
  repeat (destruct Hs as [[_ ->]|Hs]; [cbn; auto using atoi_int|]).
  subst. auto.
Qed.

(** The bounds and the step [parseArguments] returns are [int]s. *)
Lemma accepted_bounds_int argv out o :
  parseArguments argv = Some (out, true, o) ->
  is_int (lower_bound o) /\ is_int (upper_bound o) /\ is_int (step_size o).
Proof.
  intros H.
  refine (parse_loop_keeps _ (fun _ => false) keeps_int_bounds _ _ _ _ _
            (harmless_by_args _ _ (fun _ _ => eq_refl)) H _).
  unfold is_int, INT_MIN, INT_MAX. cbn. lia.
Qed.

(** ** The assignments of a parse, one after the other *)

Lemma set_option_action a v o :
  set_option a v o = option_map (fun act => run_action act o) (action_of a v).
Proof.
  unfold set_option, action_of.
  repeat match goal with
  | |- context [if (name a =? ?f)%string then _ else _] =>
      destruct (name a =? f)%string; [reflexivity|]
  end.
  reflexivity.
Qed.

Lemma scan_runs_actions rows : forall cur rest found o cur' rest' found' o',
  scan rows cur rest found o = ScanEnd cur' rest' found' o' ->
  o' = run_actions (scan_actions rows cur rest) o.
Proof.
  induction rows as [|a rows IH];
    intros cur rest found o cur' rest' found' o' H.
  - cbn in H. now injection H as _ _ _ <-.
  - cbn [scan] in H. cbn [scan_actions].
    destruct (name a =? cur)%string; cbn [negb] in *; [|now apply IH in H].
    destruct (has_value a).
    + destruct rest as [|v rest1]; [discriminate|].
      rewrite set_option_action in H.
      destruct (action_of a v) as [act|]; cbn [option_map] in H; [|discriminate].
      now apply IH in H.
    + rewrite set_option_action in H.
      destruct (action_of a cur) as [act|]; cbn [option_map] in H; [|discriminate].
      now apply IH in H.
Qed.

Lemma turn_runs_actions args o args' o' :
  turn args o = TurnNext args' o' ->
  o' = run_actions (turn_actions args) o.
Proof.
  unfold turn, turn_actions. destruct args as [|cur rest]; [discriminate|].
  destruct (scan scanned_arguments cur rest false o)
    as [cur' rest' [|] o1|out o1] eqn:Hscan; cbn [negb]; try discriminate.
  intros H. injection H as _ <-. exact (scan_runs_actions _ _ _ _ _ _ _ _ _ Hscan).
Qed.

Lemma turn_returns_true args o out o' :
  turn args o = TurnReturn out true o' -> args = [] /\ o' = o.
Proof.
  unfold turn. destruct args as [|cur rest].
  - intros H. injection H as _ <-. auto.
  - destruct (scan scanned_arguments cur rest false o) as [? ? [|] ?|? ?];
      cbn [negb]; discriminate.
Qed.

Lemma parse_loop_runs_actions fuel : forall args o out o',
  parse_loop fuel args o = Some (out, true, o') ->
  o' = run_actions (actions_loop fuel args o) o.
Proof.
  induction fuel as [|fuel IH]; intros args o out o' H;
    cbn [parse_loop] in H; cbn [actions_loop];
    destruct (turn args o) as [args1 o1|out1 res o1] eqn:Hturn;
    try discriminate.
  - injection H as -> -> ->.
    now destruct (turn_returns_true _ _ _ _ Hturn) as [-> ->].
  - unfold run_actions. rewrite fold_left_app.
    apply IH in H. rewrite H.
    now rewrite (turn_runs_actions _ _ _ _ Hturn) at 2.
  - injection H as -> -> ->.
    now destruct (turn_returns_true _ _ _ _ Hturn) as [-> ->].
Qed.

Lemma settled_run act o : settled act (run_action act o).
Proof. destruct act; reflexivity || exact I. Qed.

Lemma settled_kept act act' o :
  action_flag act' <> action_flag act ->
  settled act o -> settled act (run_action act' o).
Proof.
  destruct act, act'; cbn; intros Hflag H; try exact H; try exact I;
    exfalso; apply Hflag; reflexivity.
Qed.

(** The last action of a flag settles its option. *)
Lemma settled_last before act after o :
  (forall act', In act' after -> action_flag act' <> action_flag act) ->
  settled act (run_actions (before ++ act :: after) o).
Proof.
  intros Hafter. unfold run_actions. rewrite fold_left_app. cbn [fold_left].
  generalize (settled_run act (fold_left (fun o a => run_action a o) before o)).
  generalize (run_action act (fold_left (fun o a => run_action a o) before o)).
  induction after as [|x after IH]; intros o1 H; [exact H|].
  cbn [fold_left]. apply IH.
  - intros act' Hin. apply Hafter. now right.
  - apply settled_kept; [|exact H]. apply Hafter. now left.
Qed.

(** ** Exit codes *)




(** ** A bound the solver does not accept *)

(** C5: an iteration whose solver pipeline ends with a status other than 0
    (whatever the status: the pipeline found no model, z3 is missing, the
    shell could not be started) writes its lines and hands over to the next
    bound; the exit code of the run is that of the search from the next
    bound on, and the status itself is not looked at beyond being
    non-zero. *)
Theorem unsolved_bound_hands_over fuel w o i :
  within_bound o i = true ->
  opens w o i = true ->
  system w solver_command i <> 0 ->
  i < INT_MAX ->
  search_loop (S fuel) w o i = iteration o i +> search_loop fuel w o (i + 1) /\
  exit_code (search_loop (S fuel) w o i)
  = exit_code (search_loop fuel w o (i + 1)) /\
  (forall st, st <> 0 ->
     search_loop (S fuel) (with_status i st w) o i = search_loop (S fuel) w o i).
Proof.
  intros Hin Hopen Hst Hmax.
  pose proof (search_loop_next fuel w o i Hin Hopen Hst Hmax) as Hnext.
  split; [exact Hnext|]. split; [now rewrite Hnext|].
  intros st Hne. rewrite Hnext, search_loop_next; [| | | |exact Hmax].
  - now rewrite search_loop_past_status by lia.
  - exact Hin.
  - exact Hopen.
  - cbn [with_status system]. now rewrite Z.eqb_refl.
Qed.

Lemma unsolved_bound_hands_over_witness :
  let w := plain_world 1 (fun _ => false) 127 in
  let o := search_options w (defaults (command_line [])) in
  search_loop 2 w o 1 = iteration o 1 +> search_loop 1 w o 2 /\
  exit_code (search_loop 2 w o 1) = exit_code (search_loop 1 w o 2) /\
  (forall st, st <> 0 ->
     search_loop 2 (with_status 1 st w) o 1 = search_loop 2 w o 1).
Proof.
  cbv zeta. apply unsolved_bound_hands_over.
  - reflexivity.
  - reflexivity.
  - cbn. lia.
  - reflexivity.
Defined.

(** ** The first bound *)

Lemma keeps_prune_off a v o o' :
  ("-p" =? name a)%string = false -> set_option a v o = Some o' ->
  prune o = false -> prune o' = false.
Proof. revert a v o o'. keep_field. Qed.

Lemma search_options_lower_bound w o :
  lower_bound (search_options w o)
  = if rpg_lower_bound o then goal_layer w o else lower_bound o.
Proof. unfold search_options. now destruct (rpg_lower_bound o). Qed.

(** C6: the search starts at the goal layer of the pruner when [-r] is
    given, whatever [-l] says, and at the configured lower bound (1 when
    there is no [-l] either) when [-r] is not given.  The goal layer is an
    [int], as the field it is assigned to; the first bound then is one. *)
Theorem first_bound fuel w argv o :
  parsed w argv o ->
  is_int (goal_layer w o) ->
  let start := if rpg_lower_bound o then goal_layer w o else lower_bound o in
  is_int start /\
  main fuel w argv
  = startup w o +> search_loop fuel w (search_options w o) start /\
  (within_bound (search_options w o) start = true ->
   opens w (search_options w o) start = true ->
   exists rest, visited (main (S fuel) w argv) = start :: rest) /\
  ((exists n rest o1,
      turns n (skipn 3 argv) (defaults argv) = Some ("-r" :: rest, o1)) ->
   start = goal_layer w o) /\
  (~ In "-r" (skipn 3 argv) -> start = lower_bound o) /\
  (~ In "-r" (skipn 3 argv) -> ~ In "-l" (skipn 3 argv) -> start = 1).
Proof.
  intros Hparsed Hgoal start.
  assert (Hstart : is_int start).
  { unfold start. destruct (rpg_lower_bound o); [exact Hgoal|].
    destruct Hparsed as ([_ Hparse] & _ & _).
    exact (proj1 (accepted_bounds_int _ _ _ Hparse)). }
  split; [exact Hstart|].
  assert (Hmain : forall fuel,
             main fuel w argv
             = startup w o +> search_loop fuel w (search_options w o) start).
  { intros fuel'. rewrite (main_parsed _ _ _ _ Hparsed).
    now rewrite search_options_lower_bound. }
  destruct Hparsed as ([_ Hparse] & _ & _).
  assert (Hoff : ~ In "-r" (skipn 3 argv) -> rpg_lower_bound o = false).
  { intros Hnot.
    refine (parse_loop_keeps _ _ keeps_rpg_off _ _ _ _ _
              (harmless_by_args _ _ (untouched _ _ Hnot)) Hparse eq_refl). }
  split; [apply Hmain|]. split; [|split; [|split]].
  - intros Hin Hopen. rewrite Hmain, visited_prepend.
    cbn [filter_map startup encoded app search_loop].
    rewrite Hin, (set_output_opens _ _ _ Hopen), visited_prepend, filter_map_app.
    destruct (encoding_path (search_options w o) =? "")%string; cbn; eauto.
  - intros (n & rest & o1 & Hturns).
    rewrite (parseArguments_turns _ _ _ _ Hturns) in Hparse.
    unfold start. now rewrite (met_rpg_lower_bound _ _ _ _ _ Hparse).
  - intros Hnot. unfold start. now rewrite (Hoff Hnot).
  - intros Hnot Hnol. unfold start. rewrite (Hoff Hnot).
    refine (parse_loop_keeps _ _ (keeps_lower_bound 1) _ _ _ _ _
              (harmless_by_args _ _ (untouched _ _ Hnol)) Hparse eq_refl).
Qed.

Lemma first_bound_witness :
  let w := plain_world 2 (fun _ => true) 0 in
  let argv := command_line ["-l"; "4"; "-r"] in
  exists o, parsed w argv o /\
    main 1 w argv = startup w o +> search_loop 1 w (search_options w o) 2 /\
    exists rest, visited (main 1 w argv) = 2 :: rest.
Proof.
  cbv zeta.
  set (w := plain_world 2 (fun _ => true) 0).
  set (argv := command_line ["-l"; "4"; "-r"]).
  set (o := set_rpg_lower_bound true
              (set_lower_bound 4 (defaults argv))).
  assert (Hparsed : parsed w argv o).
  { split; [split; [cbn; lia|reflexivity]|split; reflexivity]. }
  exists o. split; [exact Hparsed|].
  assert (Hgoal : is_int (goal_layer w o)).
  { unfold is_int, INT_MIN, INT_MAX. cbn. lia. }
  destruct (first_bound 0 w argv o Hparsed Hgoal) as (_ & Hmain & Hfirst & _).
  split.
  - apply (first_bound 1 w argv o Hparsed Hgoal).
  - apply Hfirst; reflexivity.
Defined.

(** ** The naming of the variables *)

(** The rows past the seventh, [-n] and [-e], are not compared with any
    argument: either is answered as an unrecognised argument. *)
Lemma rows_past_the_seventh :
  known_flag "-n" = false /\ known_flag "-e" = false /\
  parseArguments (command_line ["-e"])
  = Some ([Cerr [AStr "Unrecognised argument: "; AStr "-e"; AEndl]], false,
          defaults (command_line ["-e"])).
Proof. repeat split. Qed.

(** C7 (as stated, refuted): with no [-e] among the arguments the options
    come out with [explanatory_var_names] set, where the statement has the
    terse identifiers. *)
Lemma readable_names_without_flag :
  ~ In "-e" (skipn 3 (command_line [])) /\
  (exists o, accepted (command_line []) o /\ explanatory_var_names o = true) /\
  ~ naming_follows_flag (command_line []).
Proof.
  split; [intros []|]. split.
  - eexists. split; [split; [cbn; lia|vm_compute; reflexivity]|reflexivity].
  - intros H. apply (H [] (defaults (command_line [])) eq_refl). reflexivity.
Qed.

(** C7 (amended): the readable names are the default and no argument
    switches them off: whatever command line [parseArguments] accepts, it
    leaves [explanatory_var_names] set. *)
Theorem explanatory_names_always_on argv out o :
  parseArguments argv = Some (out, true, o) ->
  explanatory_var_names o = true.
Proof.
  intros H. now apply (accepted_solve_explanatory _ _ _ H).
Qed.

Lemma explanatory_names_always_on_witness :
  explanatory_var_names
    (set_lower_bound 3 (set_prune true (defaults (command_line ["-p"; "-l"; "3"]))))
  = true.
Proof.
  apply (explanatory_names_always_on (command_line ["-p"; "-l"; "3"]) []).
  reflexivity.
Defined.

(** ** Errors of the command line *)

Lemma unknown_flag_misses x :
  known_flag x = false ->
  forall b, In b scanned_arguments -> (name b =? x)%string = false.
Proof.
  intros Hx b Hb. destruct (name b =? x)%string eqn:Hname; [|reflexivity].
  assert (Hk : known_flag x = true) by (apply existsb_exists; eauto).
  congruence.
Qed.

Lemma turn_unknown x rest o :
  known_flag x = false ->
  turn (x :: rest) o
  = TurnReturn [Cerr [AStr "Unrecognised argument: "; AStr x; AEndl]] false o.
Proof.
  intros Hx. unfold turn. now rewrite (scan_miss _ _ _ _ _ (unknown_flag_misses _ Hx)).
Qed.

Lemma turn_missing_value x o :
  takes_value x = true ->
  turn [x] o
  = TurnReturn [Fprintf "\nExpected value for option %s\n\n" [AStr x]] false o.
Proof.
  intros Hx. apply existsb_exists in Hx. destruct Hx as (a & Ha & Hx).
  apply andb_true_iff in Hx. destruct Hx as [Hname Hval].
  apply String.eqb_eq in Hname. subst x. cbn in Ha.
  repeat (destruct Ha as [<-|Ha]; [try discriminate Hval; reflexivity|]).
  contradiction.
Qed.

Lemma main_rejected fuel w argv out o :
  (3 <= length argv)%nat ->
  parseArguments argv = Some (out, false, o) ->
  main fuel w argv = (out ++ printUsage (nth 0 argv ""), Exit 1).
Proof.
  intros Hlen H. unfold main. apply Nat.ltb_ge in Hlen. now rewrite Hlen, H.
Qed.

(** C8 (as stated, refuted): with [-l] as the last argument the message
    about the missing value is written with [fprintf(stdout, ...)]; nothing
    goes to standard error. *)
Lemma missing_value_not_on_stderr :
  let argv := command_line ["-l"] in
  takes_value (last argv "") = true /\
  (forall fuel w,
     main fuel w argv
     = (Fprintf "\nExpected value for option %s\n\n" [AStr "-l"]
          :: printUsage "SMTPlan", Exit 1)) /\
  (forall fuel w, ~ argument_error_reported (main fuel w argv) "SMTPlan").
Proof.
  cbv zeta. split; [reflexivity|]. split; [reflexivity|].
  intros fuel w [Hcerr _]. discriminate Hcerr.
Qed.

(** C8 (amended): when the loop over the trailing arguments comes to an
    argument that is none of the seven names it compares with, the message
    about the unrecognised argument goes to standard error; when it comes
    to a flag that takes a value and is the last argument, the message
    about the expected value goes to standard output.  Either way the usage
    text follows, [main] returns 1, and nothing of parsing, grounding or
    encoding is started. *)
Theorem argument_error_ends_run fuel w argv n x rest o :
  (3 <= length argv)%nat ->
  turns n (skipn 3 argv) (defaults argv) = Some (x :: rest, o) ->
  (known_flag x = false ->
   main fuel w argv
   = (Cerr [AStr "Unrecognised argument: "; AStr x; AEndl]
        :: printUsage (nth 0 argv ""), Exit 1)) /\
  (takes_value x = true -> rest = [] ->
   main fuel w argv
   = (Fprintf "\nExpected value for option %s\n\n" [AStr x]
        :: printUsage (nth 0 argv ""), Exit 1)) /\
  (known_flag x = false \/ (takes_value x = true /\ rest = []) ->
   existsb is_work (fst (main fuel w argv)) = false /\
   exit_code (main fuel w argv) = Some 1).
Proof.
  intros Hlen Hturns.
  pose proof (parseArguments_turns _ _ _ _ Hturns) as Hparse.
  cbn [length parse_loop] in Hparse.
  assert (Hunknown : known_flag x = false ->
            main fuel w argv
            = (Cerr [AStr "Unrecognised argument: "; AStr x; AEndl]
                 :: printUsage (nth 0 argv ""), Exit 1)).
  { intros Hx. rewrite (turn_unknown _ _ _ Hx) in Hparse.
    now rewrite (main_rejected _ _ _ _ _ Hlen Hparse). }
  assert (Hmissing : takes_value x = true -> rest = [] ->
            main fuel w argv
            = (Fprintf "\nExpected value for option %s\n\n" [AStr x]
                 :: printUsage (nth 0 argv ""), Exit 1)).
  { intros Hx ->. rewrite (turn_missing_value _ _ Hx) in Hparse.
    now rewrite (main_rejected _ _ _ _ _ Hlen Hparse). }
  split; [exact Hunknown|]. split; [exact Hmissing|].
  intros [Hx|[Hx Hrest]].
  - rewrite (Hunknown Hx). split; reflexivity.
  - rewrite (Hmissing Hx Hrest). split; reflexivity.
Qed.

Lemma argument_error_ends_run_witness :
  let w := plain_world 1 (fun _ => true) 0 in
  let argv := command_line ["-p"; "-u"; "7"; "--fast"; "-l"] in
  main 1 w argv
  = (Cerr [AStr "Unrecognised argument: "; AStr "--fast"; AEndl]
       :: printUsage "SMTPlan", Exit 1) /\
  existsb is_work (fst (main 1 w argv)) = false /\
  exit_code (main 1 w argv) = Some 1.
Proof.
  cbv zeta.
  destruct (argument_error_ends_run 1
              (plain_world 1 (fun _ => true) 0)
              (command_line ["-p"; "-u"; "7"; "--fast"; "-l"])
              2 "--fast" ["-l"]
              (set_upper_bound 7 (set_prune true
                 (defaults (command_line ["-p"; "-u"; "7"; "--fast"; "-l"]))))
              ltac:(cbn; lia) eq_refl) as (Hunknown & _ & Hidle).
  split; [exact (Hunknown eq_refl)|]. exact (Hidle (or_introl eq_refl)).
Defined.

(** ** Defaults and repeated flags *)

(** C9: [parseArguments] starts from the defaults ([solve] and explanatory
    names on, bounds 1 and -1, step 1, pruning and the reachability bound
    off, no encoding path), goes through the trailing arguments from left
    to right, and leaves in an option what the last occurrence of its flag
    assigned: at whatever point the loop has come to, the result is that of
    the loop run from there; an option whose flag does not occur keeps its
    default; a flag the loop comes to, with no later occurrence, decides
    the value returned.  In full: the options returned are the defaults
    with every assignment the loop makes run in order, also those of a
    flag that is acted on in the middle of a turn (read first as the value
    of the flag before it), and for each flag the last of its assignments
    is the one the returned options hold.  Values are read by [atoi], so
    they are [int]s. *)
Theorem last_occurrence_decides argv n rest o out o' :
  turns n (skipn 3 argv) (defaults argv) = Some (rest, o) ->
  parseArguments argv = Some (out, true, o') ->
  defaults argv
  = mkOptions (nth 1 argv "") (nth 2 argv "") "" true true 1 (-1) 1 false false /\
  parse_loop (length rest) rest o = Some (out, true, o') /\
  ((~ In "-l" (skipn 3 argv) -> lower_bound o' = 1) /\
   (~ In "-u" (skipn 3 argv) -> upper_bound o' = -1) /\
   (~ In "-s" (skipn 3 argv) -> step_size o' = 1) /\
   (~ In "-o" (skipn 3 argv) -> encoding_path o' = "") /\
   (~ In "-p" (skipn 3 argv) -> prune o' = false) /\
   (~ In "-r" (skipn 3 argv) -> rpg_lower_bound o' = false) /\
   solve o' = true /\ explanatory_var_names o' = true) /\
  ((forall v rest', rest = "-l" :: v :: rest' -> ~ In "-l" rest' ->
      lower_bound o' = atoi v) /\
   (forall v rest', rest = "-u" :: v :: rest' -> ~ In "-u" rest' ->
      upper_bound o' = atoi v) /\
   (forall v rest', rest = "-s" :: v :: rest' -> ~ In "-s" rest' ->
      step_size o' = atoi v) /\
   (forall v rest', rest = "-o" :: v :: rest' -> ~ In "-o" rest' ->
      encoding_path o' = v) /\
   (forall rest', rest = "-p" :: rest' -> prune o' = true) /\
   (forall rest', rest = "-r" :: rest' -> rpg_lower_bound o' = true)) /\
  o' = run_actions (actions argv) (defaults argv) /\
  (forall before act after,
     actions argv = before ++ act :: after ->
     (forall act', In act' after -> action_flag act' <> action_flag act) ->
     settled act o') /\
  (is_int (lower_bound o') /\ is_int (upper_bound o') /\ is_int (step_size o')).
Proof.
  intros Hturns Hparse.
  pose proof Hparse as Hfrom.
  rewrite (parseArguments_turns _ _ _ _ Hturns) in Hfrom.
  split; [reflexivity|]. split; [exact Hfrom|]. split.
  - repeat split.
    + intros Hnot.
      refine (parse_loop_keeps _ _ (keeps_lower_bound 1) _ _ _ _ _
                (harmless_by_args _ _ (untouched _ _ Hnot)) Hparse eq_refl).
    + intros Hnot.
      refine (parse_loop_keeps _ _ (keeps_upper_bound (-1)) _ _ _ _ _
                (harmless_by_args _ _ (untouched _ _ Hnot)) Hparse eq_refl).
    + intros Hnot.
      refine (parse_loop_keeps _ _ (keeps_step_size 1) _ _ _ _ _
                (harmless_by_args _ _ (untouched _ _ Hnot)) Hparse eq_refl).
    + intros Hnot.
      refine (parse_loop_keeps _ _ (keeps_encoding_path "") _ _ _ _ _
                (harmless_by_args _ _ (untouched _ _ Hnot)) Hparse eq_refl).
    + intros Hnot.
      refine (parse_loop_keeps _ _ keeps_prune_off _ _ _ _ _
                (harmless_by_args _ _ (untouched _ _ Hnot)) Hparse eq_refl).
    + intros Hnot.
      refine (parse_loop_keeps _ _ keeps_rpg_off _ _ _ _ _
                (harmless_by_args _ _ (untouched _ _ Hnot)) Hparse eq_refl).
    + now apply (accepted_solve_explanatory _ _ _ Hparse).
    + now apply (accepted_solve_explanatory _ _ _ Hparse).
  - split; [|split; [|split]].
    { repeat split.
      + intros v rest' -> Hlast. exact (last_lower_bound _ _ _ _ _ _ Hlast Hfrom).
      + intros v rest' -> Hlast. exact (last_upper_bound _ _ _ _ _ _ Hlast Hfrom).
      + intros v rest' -> Hlast. exact (last_step_size _ _ _ _ _ _ Hlast Hfrom).
      + intros v rest' -> Hlast. exact (last_encoding_path _ _ _ _ _ _ Hlast Hfrom).
      + intros rest' ->. exact (met_prune _ _ _ _ _ Hfrom).
      + intros rest' ->. exact (met_rpg_lower_bound _ _ _ _ _ Hfrom). }
    { exact (parse_loop_runs_actions _ _ _ _ _ Hparse). }
    { intros before act after Hacts Hafter.
      rewrite (parse_loop_runs_actions _ _ _ _ _ Hparse).
      fold (actions argv). rewrite Hacts. now apply settled_last. }
    { exact (accepted_bounds_int _ _ _ Hparse). }
Qed.

Lemma last_occurrence_decides_witness :
  let argv := command_line ["-u"; "3"; "-l"; "-u"; "5"; "-l"; "2147483648"] in
  exists o', parseArguments argv = Some ([], true, o') /\
             actions argv
             = [AUpper "3"; ALower "-u"; AUpper "5"; ALower "2147483648"] /\
             upper_bound o' = 5 /\ lower_bound o' = -2147483648 /\
             prune o' = false.
Proof.
  cbv zeta.
  set (argv := command_line ["-u"; "3"; "-l"; "-u"; "5"; "-l"; "2147483648"]).
  set (o' := set_lower_bound (-2147483648)
               (set_upper_bound 5 (set_lower_bound 0
                  (set_upper_bound 3 (defaults argv))))).
  assert (Hparse : parseArguments argv = Some ([], true, o')) by reflexivity.
  destruct (last_occurrence_decides argv 0 (skipn 3 argv) (defaults argv) [] o'
              eq_refl Hparse)
    as (_ & _ & (_ & _ & _ & _ & Hprune & _) & _ & _ & Hlast & _).
  exists o'. split; [exact Hparse|]. split; [reflexivity|]. split; [|split].
  - apply (Hlast [AUpper "3"; ALower "-u"] (AUpper "5") [ALower "2147483648"]
             eq_refl).
    intros act' [<-|[]]. discriminate.
  - apply (Hlast [AUpper "3"; ALower "-u"; AUpper "5"] (ALower "2147483648") []
             eq_refl).
    intros act' [].
  - apply Hprune. cbn. intros H. repeat (destruct H as [H|H]; [discriminate H|]).
    exact H.
Defined.

(** ** An upper bound below the first bound *)

(** C10: when the upper bound is not negative and lies below the first
    bound (an [int], like the upper bound read from the command line), the
    loop condition fails at once: after the lines of the start
    [main] writes that no plan was found and returns 0; nothing is encoded
    and the shell is not called. *)
Theorem upper_bound_below_first_bound fuel w argv o :
  parsed w argv o ->
  is_int (lower_bound (search_options w o)) ->
  0 <= upper_bound o < lower_bound (search_options w o) ->
  main (S fuel) w argv
  = (startup w o
     ++ [Cout [AStr "No plan found in "; AInt (upper_bound o);
               AStr " happenings"; AEndl];
         Fprintf "Total time:\t%f seconds\n" [ASeconds]], Exit 0) /\
  visited (main (S fuel) w argv) = [] /\
  solver_calls (main (S fuel) w argv) = 0%nat /\
  exit_code (main (S fuel) w argv) = Some 0.
Proof.
  intros Hparsed _ Hbound.
  assert (Hup : upper_bound (search_options w o) = upper_bound o).
  { unfold search_options. now destruct (rpg_lower_bound o). }
  assert (Hmain : main (S fuel) w argv
                  = (startup w o
                     ++ [Cout [AStr "No plan found in "; AInt (upper_bound o);
                               AStr " happenings"; AEndl];
                         Fprintf "Total time:\t%f seconds\n" [ASeconds]], Exit 0)).
  { rewrite (main_parsed _ _ _ _ Hparsed). cbn [search_loop].
    rewrite past_upper_bound by (rewrite Hup; lia).
    now rewrite Hup. }
  rewrite Hmain. repeat split.
Qed.

Lemma upper_bound_below_first_bound_witness :
  let w := plain_world 1 (fun _ => true) 0 in
  let argv := command_line ["-l"; "5"; "-u"; "2"] in
  visited (main 1 w argv) = [] /\
  solver_calls (main 1 w argv) = 0%nat /\
  exit_code (main 1 w argv) = Some 0.
Proof.
  cbv zeta.
  apply (upper_bound_below_first_bound 0
           (plain_world 1 (fun _ => true) 0)
           (command_line ["-l"; "5"; "-u"; "2"])
           (set_upper_bound 2 (set_lower_bound 5
              (defaults (command_line ["-l"; "5"; "-u"; "2"]))))).
  - split; [split; [cbn; lia|reflexivity]|split; reflexivity].
  - unfold is_int, INT_MIN, INT_MAX. cbn. lia.
  - cbn. lia.
Defined.

(** * More of the driver *)

(** ** Command lines made of plain options *)

Lemma existsb_none {A} (f : A -> bool) l :
  existsb f l = false -> forall b, In b l -> f b = false.
Proof.
  intros H b Hb. destruct (f b) eqn:Hf; [|reflexivity].
  assert (Ht : existsb f l = true) by (apply existsb_exists; eauto).
  congruence.
Qed.

Lemma scan_value_plain rows1 a rows2 cur v rest found o o1 :
  (forall b, In b rows1 -> (name b =? cur)%string = false) ->
  name a = cur ->
  has_value a = true ->
  set_option a v o = Some o1 ->
  existsb (fun b => (name b =? v)%string) rows2 = false ->
  scan (rows1 ++ a :: rows2) cur (v :: rest) found o = ScanEnd v rest true o1.
Proof.
  intros Hmiss Hname Hval Hset Hrows.
  rewrite (scan_hit_value _ _ _ _ _ _ _ _ o1 Hmiss Hname Hval Hset).
  apply scan_miss. exact (existsb_none _ _ Hrows).
Qed.

Ltac split_rows k k1 :=
  change scanned_arguments
    with (firstn k scanned_arguments ++ row k :: skipn k1 scanned_arguments).

(** A turn on a plain item assigns it and leaves the cursor behind it. *)
Lemma turn_item it rest o :
  plain it = true ->
  turn (render it ++ rest) o = TurnNext rest (assign it o).
Proof.
  destruct it as [|v| |v|v|v]; cbn [render flag value app]; intros Hplain;
    try reflexivity; unfold plain in Hplain; cbn [value] in Hplain;
    apply negb_true_iff in Hplain; unfold turn.
  - split_rows 2%nat 3%nat.
    rewrite (scan_value_plain _ _ _ _ _ _ _ _ (set_lower_bound (atoi v) o));
      [reflexivity|rows_apart|reflexivity|reflexivity|reflexivity|exact Hplain].
  - split_rows 4%nat 5%nat.
    rewrite (scan_value_plain _ _ _ _ _ _ _ _ (set_upper_bound (atoi v) o));
      [reflexivity|rows_apart|reflexivity|reflexivity|reflexivity|exact Hplain].
  - split_rows 5%nat 6%nat.
    rewrite (scan_value_plain _ _ _ _ _ _ _ _ (set_step_size (atoi v) o));
      [reflexivity|rows_apart|reflexivity|reflexivity|reflexivity|exact Hplain].
Qed.

Lemma parse_loop_items items : forall rest o,
  Forall (fun it => plain it = true) items ->
  parse_loop (length (flat_map render items ++ rest)) (flat_map render items ++ rest) o
  = parse_loop (length rest) rest (assign_all items o).
Proof.
  induction items as [|it items IH]; intros rest o Hplain; [reflexivity|].
  inversion Hplain as [|? ? Hit Hitems]; subst.
  change (assign_all (it :: items) o) with (assign_all items (assign it o)).
  cbn [flat_map]. rewrite <- app_assoc.
  assert (Hlen : exists k, length (render it ++ flat_map render items ++ rest) = S k
                           /\ (length (flat_map render items ++ rest) <= k)%nat).
  { destruct it; cbn [render flag value app length]; eexists; split;
      try reflexivity; lia. }
  destruct Hlen as (k & -> & Hk). cbn [parse_loop].
  rewrite (turn_item _ _ _ Hit).
  rewrite <- (IH rest (assign it o) Hitems).
  apply parse_loop_enough; [exact Hk|lia].
Qed.

Lemma parse_plain_items argv items :
  skipn 3 argv = flat_map render items ->
  Forall (fun it => plain it = true) items ->
  parseArguments argv = Some ([], true, assign_all items (defaults argv)).
Proof.
  intros Hargs Hplain. unfold parseArguments. rewrite Hargs.
  rewrite (parse_loop_enough _ (length (flat_map render items)));
    [| |lia].
  - pose proof (parse_loop_items items [] (defaults argv) Hplain) as H.
    rewrite app_nil_r in H. now rewrite H.
  - rewrite <- Hargs, length_skipn. lia.
Qed.

(** X1: a command line whose options are plain items ([-p], [-r], or a
    flag with a value that does not name a later row of the table) is
    accepted without a message, and the options returned are the defaults
    with the items assigned one after the other, from left to right; the
    bounds and the step among them are [int]s, whatever numerals the values
    are. *)
Theorem plain_options_fold a0 a1 a2 items :
  Forall (fun it => plain it = true) items ->
  let o := assign_all items
             (mkOptions a1 a2 "" true true 1 (-1) 1 false false) in
  parseArguments (a0 :: a1 :: a2 :: flat_map render items)
  = Some ([], true, o) /\
  is_int (lower_bound o) /\ is_int (upper_bound o) /\ is_int (step_size o).
Proof.
  intros Hplain o.
  assert (H : parseArguments (a0 :: a1 :: a2 :: flat_map render items)
              = Some ([], true, o)) by now apply parse_plain_items.
  split; [exact H|]. exact (accepted_bounds_int _ _ _ H).
Qed.

Lemma plain_options_fold_witness :
  parseArguments ("SMTPlan" :: "d.pddl" :: "p.pddl"
                  :: flat_map render
                       [ILower "2"; IPrune; IOutput "-h"; ILower "4294967297"])
  = Some ([], true,
          mkOptions "d.pddl" "p.pddl" "-h" true true 1 (-1) 1 true false).
Proof.
  apply (plain_options_fold "SMTPlan" "d.pddl" "p.pddl"
           [ILower "2"; IPrune; IOutput "-h"; ILower "4294967297"]).
  repeat constructor.
Defined.

(** ** The order of the options *)

Lemma assign_commute a b o :
  flag a <> flag b -> assign a (assign b o) = assign b (assign a o).
Proof.
  destruct a, b; intros H; try reflexivity; exfalso; apply H; reflexivity.
Qed.

Lemma assign_all_permutation l1 l2 :
  Permutation l1 l2 ->
  NoDup (map flag l1) ->
  forall o, assign_all l1 o = assign_all l2 o.
Proof.
  induction 1 as [|x l l' Hperm IH|x y l|l l' l'' H1 IH1 H2 IH2];
    intros Hnodup o.
  - reflexivity.
  - cbn [map] in Hnodup. apply NoDup_cons_iff in Hnodup.
    unfold assign_all. cbn [fold_left]. apply IH. tauto.
  - cbn [map] in Hnodup. apply NoDup_cons_iff in Hnodup.
    destruct Hnodup as [Hnot _].
    unfold assign_all. cbn [fold_left]. rewrite (assign_commute x y); [reflexivity|].
    intros Heq. apply Hnot. left. exact Heq.
  - rewrite (IH1 Hnodup). apply IH2.
    apply (Permutation_NoDup (l := map flag l)); [|exact Hnodup].
    now apply Permutation_map.
Qed.

(** X2: plain options with distinct flags may be written in any order: the
    options [parseArguments] returns are the same. *)
Theorem plain_options_any_order a0 a1 a2 items1 items2 :
  Permutation items1 items2 ->
  NoDup (map flag items1) ->
  Forall (fun it => plain it = true) items1 ->
  parseArguments (a0 :: a1 :: a2 :: flat_map render items1)
  = parseArguments (a0 :: a1 :: a2 :: flat_map render items2).
Proof.
  intros Hperm Hnodup Hplain.
  assert (Hplain2 : Forall (fun it => plain it = true) items2).
  { apply Forall_forall. intros it Hit.
    apply (proj1 (Forall_forall _ _) Hplain).
    apply (Permutation_in it (Permutation_sym Hperm) Hit). }
  rewrite (parse_plain_items (a0 :: a1 :: a2 :: flat_map render items1)
             items1 eq_refl Hplain).
  rewrite (parse_plain_items (a0 :: a1 :: a2 :: flat_map render items2)
             items2 eq_refl Hplain2).
  unfold defaults. cbn [nth].
  now rewrite (assign_all_permutation _ _ Hperm Hnodup).
Qed.

Lemma plain_options_any_order_witness :
  parseArguments (command_line ["-u"; "9"; "-p"; "-l"; "2"])
  = parseArguments (command_line ["-l"; "2"; "-u"; "9"; "-p"]).
Proof.
  apply (plain_options_any_order "SMTPlan" "domain.pddl" "problem.pddl"
           [IUpper "9"; IPrune; ILower "2"] [ILower "2"; IUpper "9"; IPrune]).
  - apply Permutation_sym.
    apply (Permutation_cons_app [IUpper "9"; IPrune] [] (ILower "2")).
    rewrite app_nil_r. apply Permutation_refl.
  - repeat constructor; cbn; intros H;
      repeat (destruct H as [H|H]; [discriminate H|]); exact H.
  - repeat constructor.
Defined.

(** ** A value that names a later row *)

(** X3: a value that is spelled like the flag of a later row of the table
    is read twice in the same turn: it is assigned as the value of the flag
    before it, and then acted on as a flag of its own, which takes the next
    argument as its value when its row has one.  So [-l -u 5] leaves the
    lower bound at [atoi("-u")], which is 0, and the upper bound at 5. *)
Theorem value_naming_later_flag it1 it2 rest o :
  value it1 = Some (flag it2) ->
  reread it1 (flag it2) = true ->
  plain it2 = true ->
  turn (flag it1 :: render it2 ++ rest) o
  = TurnNext rest (assign it2 (assign it1 o)).
Proof.
  intros Hval Hre Hplain.
  destruct it1 as [|v1| |v1|v1|v1]; cbn [value] in Hval; try discriminate;
    injection Hval as ->;
    destruct it2 as [|v2| |v2|v2|v2]; try discriminate Hre;
    cbn [render flag value app]; try reflexivity;
    unfold plain in Hplain; cbn [value] in Hplain;
    apply negb_true_iff in Hplain; unfold turn.
  - (* -l -u v2 *)
    split_rows 2%nat 3%nat.
    rewrite (scan_hit_value _ _ _ _ _ _ _ _ (set_lower_bound (atoi "-u") o));
      [|rows_apart|reflexivity|reflexivity|reflexivity].
    change (skipn 3 scanned_arguments)
      with (firstn 1 (skipn 3 scanned_arguments) ++ row 4 :: skipn 5 scanned_arguments).
    rewrite (scan_value_plain _ _ _ _ _ _ _ _
               (set_upper_bound (atoi v2) (set_lower_bound (atoi "-u") o)));
      [reflexivity|rows_apart|reflexivity|reflexivity|reflexivity|exact Hplain].
  - (* -l -s v2 *)
    split_rows 2%nat 3%nat.
    rewrite (scan_hit_value _ _ _ _ _ _ _ _ (set_lower_bound (atoi "-s") o));
      [|rows_apart|reflexivity|reflexivity|reflexivity].
    change (skipn 3 scanned_arguments)
      with (firstn 2 (skipn 3 scanned_arguments) ++ row 5 :: skipn 6 scanned_arguments).
    rewrite (scan_value_plain _ _ _ _ _ _ _ _
               (set_step_size (atoi v2) (set_lower_bound (atoi "-s") o)));
      [reflexivity|rows_apart|reflexivity|reflexivity|reflexivity|exact Hplain].
  - (* -u -s v2 *)
    split_rows 4%nat 5%nat.
    rewrite (scan_hit_value _ _ _ _ _ _ _ _ (set_upper_bound (atoi "-s") o));
      [|rows_apart|reflexivity|reflexivity|reflexivity].
    change (skipn 5 scanned_arguments)
      with (firstn 0 (skipn 5 scanned_arguments) ++ row 5 :: skipn 6 scanned_arguments).
    rewrite (scan_value_plain _ _ _ _ _ _ _ _
               (set_step_size (atoi v2) (set_upper_bound (atoi "-s") o)));
      [reflexivity|rows_apart|reflexivity|reflexivity|reflexivity|exact Hplain].
Qed.

Lemma value_naming_later_flag_witness :
  turn ["-l"; "-u"; "5"; "-p"] (defaults (command_line []))
  = TurnNext ["-p"]
      (set_upper_bound 5 (set_lower_bound 0 (defaults (command_line [])))).
Proof.
  exact (value_naming_later_flag (ILower "-u") (IUpper "5") ["-p"]
           (defaults (command_line [])) eq_refl eq_refl eq_refl).
Defined.

(** ** Why [parseArguments] returns [false] *)

Lemma set_option_none a v o : set_option a v o = None -> name a = "-h".
Proof.
  unfold set_option.
  repeat match goal with
  | |- context [if (name a =? ?f)%string then _ else _] =>
      destruct (String.eqb_spec (name a) f)
  end; intros H; try discriminate; assumption.
Qed.

Lemma last_app_nonempty {A} (pre l : list A) d :
  l <> [] -> last (pre ++ l) d = last l d.
Proof.
  intros Hne. induction pre as [|x pre IH]; [reflexivity|].
  cbn [app]. destruct (pre ++ l) as [|y t] eqn:Happ.
  - apply app_eq_nil in Happ. destruct Happ as [_ ->]. contradiction.
  - exact IH.
Qed.

Lemma scan_return_reason rows : forall cur rest found o out o',
  scan rows cur rest found o = ScanReturn out o' ->
  (out = [] /\ In "-h" (cur :: rest)) \/
  (exists f, out = [Fprintf "\nExpected value for option %s\n\n" [AStr f]] /\
             last (cur :: rest) "" = f /\
             existsb (fun a => ((name a =? f)%string && has_value a)%bool) rows
             = true).
Proof.
  induction rows as [|a rows IH]; intros cur rest found o out o' H;
    [discriminate|].
  cbn [scan] in H. cbn [existsb].
  destruct (name a =? cur)%string eqn:Hname; cbn [negb] in H.
  2:{ apply IH in H. destruct H as [H|(f & -> & Hlast & Hrow)]; [now left|].
      right. exists f. rewrite Hrow. now rewrite orb_true_r. }
  pose proof Hname as Hcur. apply String.eqb_eq in Hcur.
  destruct (has_value a) eqn:Hval.
  - destruct rest as [|v rest1].
    + injection H as <- _. right. exists cur. now rewrite Hname.
    + destruct (set_option a v o) as [o1|] eqn:Hset.
      * apply IH in H. destruct H as [[-> Hin]|(f & -> & Hlast & Hrow)].
        -- left. split; [reflexivity|]. now right.
        -- right. exists f. rewrite Hrow. now rewrite orb_true_r.
      * injection H as <- _. left. split; [reflexivity|]. left.
        rewrite <- Hcur. exact (set_option_none _ _ _ Hset).
  - destruct (set_option a cur o) as [o1|] eqn:Hset.
    + apply IH in H. destruct H as [H|(f & -> & Hlast & Hrow)]; [now left|].
      right. exists f. rewrite Hrow. now rewrite orb_true_r.
    + injection H as <- _. left. split; [reflexivity|]. left.
      rewrite <- Hcur. exact (set_option_none _ _ _ Hset).
Qed.

Lemma scan_found_stays rows : forall cur rest o cur' rest' o',
  scan rows cur rest true o <> ScanEnd cur' rest' false o'.
Proof.
  induction rows as [|a rows IH]; intros cur rest o cur' rest' o' H.
  - cbn in H. discriminate.
  - cbn [scan] in H.
    destruct (name a =? cur)%string; cbn [negb] in H; [|now apply IH in H].
    destruct (has_value a).
    + destruct rest as [|v rest1]; [discriminate|].
      destruct (set_option a v o); [|discriminate]. now apply IH in H.
    + destruct (set_option a cur o); [|discriminate]. now apply IH in H.
Qed.

Lemma scan_unfound rows : forall cur rest o cur' rest' o',
  scan rows cur rest false o = ScanEnd cur' rest' false o' ->
  cur' = cur /\ existsb (fun a => (name a =? cur)%string) rows = false.
Proof.
  induction rows as [|a rows IH]; intros cur rest o cur' rest' o' H.
  - cbn in H. injection H as -> _ _. auto.
  - cbn [scan] in H. cbn [existsb].
    destruct (name a =? cur)%string; cbn [negb] in H; [|now apply IH in H].
    destruct (has_value a).
    + destruct rest as [|v rest1]; [discriminate|].
      destruct (set_option a v o); [|discriminate].
      now apply scan_found_stays in H.
    + destruct (set_option a cur o); [|discriminate].
      now apply scan_found_stays in H.
Qed.

Lemma turn_return_reason args o out o' :
  turn args o = TurnReturn out false o' ->
  (out = [] /\ In "-h" args) \/
  (exists f, out = [Fprintf "\nExpected value for option %s\n\n" [AStr f]] /\
             last args "" = f /\ takes_value f = true) \/
  (exists x, out = [Cerr [AStr "Unrecognised argument: "; AStr x; AEndl]] /\
             In x args /\ known_flag x = false).
Proof.
  unfold turn. destruct args as [|cur rest]; [discriminate|].
  destruct (scan scanned_arguments cur rest false o)
    as [cur' rest' [|] o1|out1 o1] eqn:Hscan; cbn [negb]; intros H;
    try discriminate.
  - injection H as <- _. apply scan_unfound in Hscan.
    destruct Hscan as [-> Hnone]. right. right. exists cur.
    split; [reflexivity|]. split; [now left|exact Hnone].
  - injection H as <- _. apply scan_return_reason in Hscan. tauto.
Qed.

Lemma parse_loop_return_reason fuel : forall args o out o',
  parse_loop fuel args o = Some (out, false, o') ->
  (out = [] /\ In "-h" args) \/
  (exists f, out = [Fprintf "\nExpected value for option %s\n\n" [AStr f]] /\
             last args "" = f /\ takes_value f = true) \/
  (exists x, out = [Cerr [AStr "Unrecognised argument: "; AStr x; AEndl]] /\
             In x args /\ known_flag x = false).
Proof.
  assert (Hlift : forall args args1 o1 o out,
             turn args o = TurnNext args1 o1 ->
             ((out = [] /\ In "-h" args1) \/
              (exists f, out = [Fprintf "\nExpected value for option %s\n\n" [AStr f]] /\
                         last args1 "" = f /\ takes_value f = true) \/
              (exists x, out = [Cerr [AStr "Unrecognised argument: "; AStr x; AEndl]] /\
                         In x args1 /\ known_flag x = false)) ->
             (out = [] /\ In "-h" args) \/
             (exists f, out = [Fprintf "\nExpected value for option %s\n\n" [AStr f]] /\
                        last args "" = f /\ takes_value f = true) \/
             (exists x, out = [Cerr [AStr "Unrecognised argument: "; AStr x; AEndl]] /\
                        In x args /\ known_flag x = false)).
  { intros args args1 o1 o out Hturn H.
    apply turn_next_suffix in Hturn. destruct Hturn as (pre & _ & ->).
    destruct H as [[-> Hin]|[(f & -> & Hlast & Hf)|(x & -> & Hin & Hx)]].
    - left. split; [reflexivity|]. apply in_or_app. now right.
    - right. left. exists f. split; [reflexivity|]. split; [|exact Hf].
      rewrite last_app_nonempty; [exact Hlast|].
      intros ->. cbn in Hlast. subst f. discriminate Hf.
    - right. right. exists x. split; [reflexivity|]. split; [|exact Hx].
      apply in_or_app. now right. }
  induction fuel as [|fuel IH]; intros args o out o' H; cbn [parse_loop] in H;
    destruct (turn args o) as [args1 o1|out1 res o1] eqn:Hturn;
    try discriminate.
  - injection H as -> -> ->. exact (turn_return_reason _ _ _ _ Hturn).
  - exact (Hlift _ _ _ _ _ Hturn (IH _ _ _ _ H)).
  - injection H as -> -> ->. exact (turn_return_reason _ _ _ _ Hturn).
Qed.

(** X4: every [false] of [parseArguments] has one of three reasons, and
    what it writes tells which: nothing at all only when [-h] is among the
    trailing arguments; the line about the expected value only for the last
    argument, which is then one of the flags that take a value; the line
    about the unrecognised argument only for a trailing argument that is none
    of the seven names the loop compares with. *)
Theorem rejection_reasons argv out o :
  parseArguments argv = Some (out, false, o) ->
  (out = [] /\ In "-h" (skipn 3 argv)) \/
  (exists f, out = [Fprintf "\nExpected value for option %s\n\n" [AStr f]] /\
             last (skipn 3 argv) "" = f /\ takes_value f = true) \/
  (exists x, out = [Cerr [AStr "Unrecognised argument: "; AStr x; AEndl]] /\
             In x (skipn 3 argv) /\ known_flag x = false).
Proof. apply parse_loop_return_reason. Qed.

Lemma rejection_reasons_witness :
  exists x,
    [Cerr [AStr "Unrecognised argument: "; AStr "7"; AEndl]]
    = [Cerr [AStr "Unrecognised argument: "; AStr x; AEndl]] /\
    In x ["-u"; "-l"; "7"] /\ known_flag x = false.
Proof.
  destruct (rejection_reasons (command_line ["-u"; "-l"; "7"])
              [Cerr [AStr "Unrecognised argument: "; AStr "7"; AEndl]]
              (set_upper_bound 0 (defaults (command_line ["-u"; "-l"; "7"])))
              eq_refl)
    as [[Hout _]|[(f & Hout & _)|H]].
  - discriminate Hout.
  - discriminate Hout.
  - exact H.
Defined.

(** ** The request for help *)

(** X5: when the loop over the trailing arguments comes to [-h], nothing
    but the usage text is written and [main] returns 1: no message, and none
    of the arguments after [-h] is looked at. *)
Theorem help_request fuel w argv n rest o :
  (3 <= length argv)%nat ->
  turns n (skipn 3 argv) (defaults argv) = Some ("-h" :: rest, o) ->
  main fuel w argv = (printUsage (nth 0 argv ""), Exit 1).
Proof.
  intros Hlen Hturns.
  pose proof (parseArguments_turns _ _ _ _ Hturns) as Hparse.
  cbn [length parse_loop] in Hparse.
  change (turn ("-h" :: rest) o) with (TurnReturn [] false o) in Hparse.
  now rewrite (main_rejected _ _ _ _ _ Hlen Hparse).
Qed.

Lemma help_request_witness :
  main 1 (plain_world 1 (fun _ => true) 0)
       (command_line ["-l"; "2"; "-h"; "--no-such-flag"])
  = (printUsage "SMTPlan", Exit 1).
Proof.
  apply (help_request 1 (plain_world 1 (fun _ => true) 0)
           (command_line ["-l"; "2"; "-h"; "--no-such-flag"])
           1 ["--no-such-flag"]
           (set_lower_bound 2
              (defaults (command_line ["-l"; "2"; "-h"; "--no-such-flag"])))).
  - cbn. lia.
  - reflexivity.
Defined.

(** ** The loop over the trailing arguments ends *)

(** X6: [parseArguments] returns for every [argv]: each turn of its loop
    moves the cursor forward, so [argc] turns are enough.  When it returns
    [true] it has written nothing; when it returns [false] it has written
    one line at most. *)
Theorem parseArguments_returns argv :
  exists out res o,
    parseArguments argv = Some (out, res, o) /\
    (res = true -> out = []) /\
    (length out <= 1)%nat.
Proof.
  destruct (parseArguments_total argv) as [[[out res] o] H].
  exists out, res, o. split; [exact H|]. split.
  - intros ->. exact (parse_loop_quiet _ _ _ _ _ H).
  - apply parse_loop_out in H.
    destruct H as [->|[[f ->]|[x ->]]]; cbn; lia.
Qed.

(** ** The two paths *)

Lemma keeps_paths d p a v o o' :
  false = false -> set_option a v o = Some o' ->
  domain_path o = d /\ problem_path o = p ->
  domain_path o' = d /\ problem_path o' = p.
Proof. revert a v o o'. keep_field. Qed.

(** X7: the domain and the problem path are the first two arguments,
    whatever options follow: no option writes to them. *)
Theorem paths_are_positional argv out o :
  parseArguments argv = Some (out, true, o) ->
  domain_path o = nth 1 argv "" /\ problem_path o = nth 2 argv "".
Proof.
  intros H.
  refine (parse_loop_keeps _ (fun _ => false)
            (keeps_paths (nth 1 argv "") (nth 2 argv "")) _ _ _ _ _
            (harmless_by_args _ _ (fun _ _ => eq_refl)) H _).
  split; reflexivity.
Qed.

Lemma paths_are_positional_witness :
  domain_path (set_encoding_path "x.pddl" (set_lower_bound 2
                 (defaults (command_line ["-l"; "2"; "-o"; "x.pddl"]))))
  = "domain.pddl" /\
  problem_path (set_encoding_path "x.pddl" (set_lower_bound 2
                  (defaults (command_line ["-l"; "2"; "-o"; "x.pddl"]))))
  = "problem.pddl".
Proof.
  apply (paths_are_positional (command_line ["-l"; "2"; "-o"; "x.pddl"]) []).
  reflexivity.
Defined.

(** ** The usage text and the table *)

Lemma usage_line_known arg f :
  known_flag f = true <-> exists h, In (usage_line f h) (printUsage arg).
Proof.
  unfold printUsage, usage_line. split.
  - intros Hf. apply existsb_exists in Hf. destruct Hf as (a & Ha & Hname).
    apply String.eqb_eq in Hname. subst f. exists (help a).
    right. right. apply in_or_app. left.
    apply in_map_iff. exists a. split; [reflexivity|exact Ha].
  - intros (h & [H|[H|H]]); try discriminate H.
    apply in_app_or in H. destruct H as [H|[H|[]]]; [|discriminate H].
    apply in_map_iff in H. destruct H as (a & Heq & Ha).
    injection Heq as <- _. apply existsb_exists. exists a.
    split; [exact Ha|apply String.eqb_refl].
Qed.

(** X8: the usage text and the parser agree.  An argument that has a line
    in the usage text is never answered by [parseArguments] as an
    unrecognised argument, wherever it stands; an argument without such a
    line, standing first among the trailing arguments, always is.  So the
    usage text that follows the message lists what may stand in the place
    of the argument named in it. *)
Theorem usage_lists_what_is_parsed arg a0 a1 a2 x rest :
  ((exists h, In (usage_line x h) (printUsage arg)) ->
   forall argv out o,
     parseArguments argv = Some (out, false, o) ->
     out <> [Cerr [AStr "Unrecognised argument: "; AStr x; AEndl]]) /\
  ((forall h, ~ In (usage_line x h) (printUsage arg)) ->
   parseArguments (a0 :: a1 :: a2 :: x :: rest)
   = Some ([Cerr [AStr "Unrecognised argument: "; AStr x; AEndl]], false,
           defaults (a0 :: a1 :: a2 :: x :: rest))).
Proof.
  split.
  - intros Hline argv out o Hparse Hout.
    apply (usage_line_known arg) in Hline.
    apply parse_loop_return_reason in Hparse.
    destruct Hparse as [[-> _]|[(f & -> & _)|(y & -> & _ & Hy)]];
      try discriminate Hout.
    injection Hout as ->. congruence.
  - intros Hnone.
    assert (Hx : known_flag x = false).
    { destruct (known_flag x) eqn:Hk; [|reflexivity].
      apply (usage_line_known arg) in Hk. destruct Hk as [h Hh].
      now destruct (Hnone h). }
    unfold parseArguments. cbn [skipn length parse_loop].
    now rewrite (turn_unknown _ _ _ Hx).
Qed.

Lemma usage_lists_what_is_parsed_witness :
  parseArguments (command_line ["-n"; "-l"; "3"])
  = Some ([Cerr [AStr "Unrecognised argument: "; AStr "-n"; AEndl]], false,
          defaults (command_line ["-n"; "-l"; "3"])).
Proof.
  apply (usage_lists_what_is_parsed "SMTPlan" "SMTPlan" "domain.pddl"
           "problem.pddl" "-n" ["-l"; "3"]).
  intros h Hin.
  assert (Hk : known_flag "-n" = true).
  { apply (usage_line_known "SMTPlan"). now exists h. }
  discriminate Hk.
Defined.

(** ** One turn of the search loop, and what it leaves *)

Lemma search_loop_step fuel w o i :
  search_loop (S fuel) w o i =
  if within_bound o i then
    if opens w o i then
      if system w solver_command i =? 0 then (solving_iteration o i, Exit 0)
      else iteration o i +>
           (if i <? INT_MAX then search_loop fuel w o (i + 1)
            else ([], SignedOverflow))
    else (refused_output o, Exit 1)
  else
    ([Cout [AStr "No plan found in "; AInt (upper_bound o);
            AStr " happenings"; AEndl];
      Fprintf "Total time:\t%f seconds\n" [ASeconds]], Exit 0).
Proof.
  cbn [search_loop]. destruct (within_bound o i); [|reflexivity].
  destruct (opens w o i) eqn:Hopen.
  - rewrite (set_output_opens _ _ _ Hopen).
    unfold solving_iteration, iteration.
    destruct (system w solver_command i =? 0).
    + unfold prepend. cbn [fst snd]. now rewrite <- app_assoc.
    + now rewrite prepend_prepend, <- app_assoc.
  - now rewrite (set_output_fails _ _ _ Hopen).
Qed.

Lemma iteration_counts o i :
  filter_map encoded (iteration o i) = [i] /\
  length (filter is_system (iteration o i)) = 1%nat /\
  existsb is_cerr (iteration o i) = false /\
  existsb is_no_plan (iteration o i) = false.
Proof.
  unfold iteration. destruct (encoding_path o =? "")%string; repeat split.
Qed.

Lemma solving_iteration_counts o i :
  filter_map encoded (solving_iteration o i) = [i] /\
  length (filter is_system (solving_iteration o i)) = 1%nat /\
  existsb is_cerr (solving_iteration o i) = false /\
  existsb is_no_plan (solving_iteration o i) = false.
Proof.
  unfold solving_iteration. destruct (encoding_path o =? "")%string; repeat split.
Qed.

Lemma solver_calls_prepend tr (r : Run) :
  solver_calls (tr +> r) = (length (filter is_system tr) + solver_calls r)%nat.
Proof.
  unfold solver_calls, prepend. cbn [fst]. now rewrite filter_app, length_app.
Qed.

Lemma calls_iterations o n : forall i,
  length (filter is_system (iterations o n i)) = n.
Proof.
  induction n as [|n IH]; intros i; [reflexivity|].
  cbn [iterations]. rewrite filter_app, length_app, IH.
  now destruct (iteration_counts o i) as (_ & -> & _).
Qed.

(** X9: whatever the world and however long the search is followed, the
    bounds at which a formula is encoded are consecutive integers from the
    first bound on, without gap or repetition, and the solver pipeline is
    started once for each of them. *)
Theorem search_encodes_consecutive_bounds fuel w o i :
  exists k, (k <= fuel)%nat /\
    visited (search_loop fuel w o i) = counting k i /\
    solver_calls (search_loop fuel w o i) = k.
Proof.
  revert i. induction fuel as [|fuel IH]; intros i.
  - exists O. repeat split. constructor.
  - rewrite search_loop_step.
    destruct (within_bound o i); [|exists O; repeat split; lia].
    destruct (opens w o i); [|exists O; repeat split; lia].
    destruct (system w solver_command i =? 0).
    + exists 1%nat. destruct (solving_iteration_counts o i) as (Hv & Hc & _).
      unfold visited, solver_calls. cbn [fst]. rewrite Hv, Hc.
      repeat split. lia.
    + destruct (iteration_counts o i) as (Hv & Hc & _).
      destruct (i <? INT_MAX).
      * destruct (IH (i + 1)) as (k & Hk & Hvis & Hcalls).
        exists (S k). rewrite visited_prepend, solver_calls_prepend.
        rewrite Hv, Hc, Hvis, Hcalls. repeat split. lia.
      * exists 1%nat. rewrite visited_prepend, solver_calls_prepend.
        rewrite Hv, Hc. repeat split. lia.
Qed.

(** ** The three ways out, with their traces *)

Lemma fuel_split n fuel : (n < fuel)%nat -> exists f, fuel = (n + S f)%nat.
Proof. intros H. exists (fuel - S n)%nat. lia. Qed.

(** X10: the search returns at the first bound the solver pipeline
    accepts: with enough fuel to come to that bound the run is the unsolved
    iterations below it, then the accepted one with its two closing lines,
    and exit code 0; the bounds encoded are those from the first bound to
    the accepted one. *)
Theorem search_stops_at_first_accepted_bound fuel w o L i :
  solved_at w o L i ->
  (Z.to_nat (i - L) < fuel)%nat ->
  search_loop fuel w o L
  = (iterations o (Z.to_nat (i - L)) L ++ solving_iteration o i, Exit 0) /\
  visited (search_loop fuel w o L) = counting (Z.to_nat (i - L)) L ++ [i].
Proof.
  intros (Hi & Hun & Hin & Hopen & Hst) Hfuel.
  destruct (fuel_split _ _ Hfuel) as [f ->].
  assert (Hrun : search_loop (Z.to_nat (i - L) + S f) w o L
                 = (iterations o (Z.to_nat (i - L)) L ++ solving_iteration o i,
                    Exit 0)).
  { rewrite (search_loop_reaches _ _ _ _ _ Hi Hun), search_loop_step.
    now rewrite Hin, Hopen, Hst. }
  split; [exact Hrun|]. rewrite Hrun. unfold visited. cbn [fst].
  rewrite filter_map_app, visited_iterations.
  now destruct (solving_iteration_counts o i) as [-> _].
Qed.

Lemma search_stops_at_first_accepted_bound_witness :
  let w := plain_world 1 (fun i => 3 <=? i) 1 in
  let o := search_options w (defaults (command_line [])) in
  visited (search_loop 5 w o 1) = [1; 2; 3].
Proof.
  cbv zeta.
  apply (search_stops_at_first_accepted_bound 5
           (plain_world 1 (fun i => 3 <=? i) 1)
           (search_options (plain_world 1 (fun i => 3 <=? i) 1)
              (defaults (command_line [])))
           1 3).
  - split; [unfold INT_MAX; lia|]. split; [|repeat split].
    intros k Hk. assert (Hcases : k = 1 \/ k = 2) by lia.
    destruct Hcases as [-> | ->]; repeat split; discriminate.
  - cbn. lia.
Defined.

(** X11: when the output file does not open at a bound the search comes
    to, the run ends there with the line about the file on standard error
    and exit code 1; nothing is encoded at that bound and the solver
    pipeline is not started for it. *)
Theorem search_stops_at_refused_output fuel w o L i :
  output_fails_at w o L i ->
  (Z.to_nat (i - L) < fuel)%nat ->
  search_loop fuel w o L
  = (iterations o (Z.to_nat (i - L)) L ++ refused_output o, Exit 1) /\
  visited (search_loop fuel w o L) = counting (Z.to_nat (i - L)) L /\
  solver_calls (search_loop fuel w o L) = Z.to_nat (i - L).
Proof.
  intros (Hi & Hun & Hin & Hopen) Hfuel.
  destruct (fuel_split _ _ Hfuel) as [f ->].
  assert (Hrun : search_loop (Z.to_nat (i - L) + S f) w o L
                 = (iterations o (Z.to_nat (i - L)) L ++ refused_output o,
                    Exit 1)).
  { rewrite (search_loop_reaches _ _ _ _ _ Hi Hun), search_loop_step.
    now rewrite Hin, Hopen. }
  split; [exact Hrun|].
  rewrite Hrun. unfold visited, solver_calls. cbn [fst].
  rewrite filter_map_app, filter_app, length_app.
  rewrite visited_iterations, calls_iterations. cbn.
  split; [apply app_nil_r|lia].
Qed.

Lemma search_stops_at_refused_output_witness :
  let w := mkWorld (fun _ => true) (fun _ => true) Grounded (fun _ => 1)
                   (fun _ i => negb (i =? 2)) (fun _ _ => 1) in
  let o := search_options w (defaults (command_line [])) in
  visited (search_loop 4 w o 1) = [1] /\
  solver_calls (search_loop 4 w o 1) = 1%nat.
Proof.
  cbv zeta.
  apply (search_stops_at_refused_output 4
           (mkWorld (fun _ => true) (fun _ => true) Grounded (fun _ => 1)
                    (fun _ i => negb (i =? 2)) (fun _ _ => 1))
           (search_options
              (mkWorld (fun _ => true) (fun _ => true) Grounded (fun _ => 1)
                       (fun _ i => negb (i =? 2)) (fun _ _ => 1))
              (defaults (command_line [])))
           1 2).
  - split; [unfold INT_MAX; lia|]. split; [|repeat split].
    intros k Hk. assert (Hone : k = 1) by lia. subst k.
    repeat split; discriminate.
  - cbn. lia.
Defined.

(** ** A search without an upper bound *)

Lemma within_negative_bound o i : upper_bound o < 0 -> within_bound o i = true.
Proof.
  intros H. unfold within_bound. apply Z.ltb_lt in H. now rewrite H.
Qed.

(** X12: with a negative upper bound and a solver pipeline that accepts no
    bound, the search does not return, however long it is followed: it goes
    on until the loop variable is [INT_MAX], where [i++] is undefined. *)
Theorem unbounded_search_does_not_return w o L :
  upper_bound o < 0 ->
  L <= INT_MAX ->
  (forall k, L <= k ->
     opens w o k = true /\ system w solver_command k <> 0) ->
  (forall fuel, exit_code (search_loop fuel w o L) = None) /\
  snd (search_loop (Z.to_nat (INT_MAX - L) + 1) w o L) = SignedOverflow.
Proof.
  intros Hup HL Hworld.
  assert (Hun : forall b, unsolved w o L b).
  { intros b k Hk. split; [now apply within_negative_bound|].
    apply Hworld. lia. }
  split.
  - intros fuel. unfold exit_code.
    destruct (snd (search_loop fuel w o L)) as [c| |] eqn:Hend; try reflexivity.
    exfalso.
    apply (search_loop_exit _ _ L) in Hend; [|lia|apply Hun].
    destruct Hend as [[_ (j & Hj & _ & _ & Hopen)]
                     |[_ [(j & Hj & _ & _ & _ & Hst)|(Hbound & _)]]].
    + destruct (Hworld j ltac:(lia)) as [Hopen' _]. congruence.
    + destruct (Hworld j ltac:(lia)) as [_ Hst']. contradiction.
    + lia.
  - rewrite (search_loop_reaches w o L INT_MAX); [|lia|apply Hun].
    rewrite snd_prepend, search_loop_ending.
    rewrite within_negative_bound by exact Hup.
    destruct (Hworld INT_MAX HL) as [-> Hst].
    apply Z.eqb_neq in Hst. rewrite Hst. now rewrite Z.ltb_irrefl.
Qed.

Lemma unbounded_search_does_not_return_witness :
  let w := plain_world 1 (fun _ => false) 1 in
  let o := search_options w (defaults (command_line [])) in
  (forall fuel, exit_code (search_loop fuel w o 1) = None) /\
  snd (search_loop (Z.to_nat (INT_MAX - 1) + 1) w o 1) = SignedOverflow.
Proof.
  cbv zeta. apply unbounded_search_does_not_return.
  - cbn. lia.
  - unfold INT_MAX. lia.
  - intros k _. split; [reflexivity|discriminate].
Defined.

(** X13: with a negative upper bound the line that no plan was found is
    never written, whatever the world does. *)
Theorem no_verdict_without_upper_bound fuel w o i :
  upper_bound o < 0 ->
  existsb is_no_plan (fst (search_loop fuel w o i)) = false.
Proof.
  intros Hup. revert i. induction fuel as [|fuel IH]; intros i; [reflexivity|].
  rewrite search_loop_step, (within_negative_bound _ _ Hup).
  destruct (opens w o i); [|reflexivity].
  destruct (system w solver_command i =? 0).
  - cbn [fst]. now destruct (solving_iteration_counts o i) as (_ & _ & _ & ->).
  - unfold prepend. cbn [fst]. rewrite existsb_app.
    destruct (iteration_counts o i) as (_ & _ & _ & ->).
    destruct (i <? INT_MAX); [apply IH|reflexivity].
Qed.

Lemma no_verdict_without_upper_bound_witness :
  let w := plain_world 1 (fun i => i =? 2) 1 in
  existsb is_no_plan
    (fst (search_loop 3 w (search_options w (defaults (command_line []))) 1))
  = false.
Proof.
  cbv zeta. apply no_verdict_without_upper_bound. cbn. lia.
Defined.

(** ** Exit codes and standard error *)

Lemma search_loop_code_and_stderr w o fuel : forall i c,
  snd (search_loop fuel w o i) = Exit c ->
  (c = 0 /\ existsb is_cerr (fst (search_loop fuel w o i)) = false) \/
  (c = 1 /\ existsb is_cerr (fst (search_loop fuel w o i)) = true).
Proof.
  induction fuel as [|fuel IH]; intros i c H; [discriminate|].
  rewrite search_loop_step in *.
  destruct (within_bound o i); [|injection H as <-; now left].
  destruct (opens w o i); [|injection H as <-; now right].
  destruct (system w solver_command i =? 0).
  - injection H as <-. left. split; [reflexivity|]. cbn [fst].
    now destruct (solving_iteration_counts o i) as (_ & _ & -> & _).
  - rewrite snd_prepend in H. unfold prepend. cbn [fst]. rewrite existsb_app.
    destruct (iteration_counts o i) as (_ & _ & -> & _). cbn [orb].
    destruct (i <? INT_MAX); [now apply IH|discriminate].
Qed.

(** X14: a run of [main] that returns, returns 0 or 1.  When it returns 0
    the driver itself has written nothing to [std::cerr] (what the
    processes started by [system] write is theirs, and not part of the
    trace).  When it returns 1 the driver has written a line to
    [std::cerr], unless the command line itself was at fault (too few
    arguments, or [parseArguments] returned [false]), where the usage text
    is the answer. *)
Theorem exit_code_and_stderr fuel w argv c :
  exit_code (main fuel w argv) = Some c ->
  (c = 0 /\ existsb is_cerr (fst (main fuel w argv)) = false) \/
  (c = 1 /\ (existsb is_cerr (fst (main fuel w argv)) = true \/
             argument_failure argv)).
Proof.
  unfold main. destruct (length argv <? 3)%nat eqn:Hlen.
  { intros H. injection H as <-. right. split; [reflexivity|]. right. left.
    now apply Nat.ltb_lt. }
  destruct (parseArguments argv) as [[[out res] o]|] eqn:Hparse; [|discriminate].
  destruct res.
  2:{ intros H. injection H as <-. right. split; [reflexivity|]. right. right.
      eauto. }
  rewrite (parse_loop_quiet _ _ _ _ _ Hparse), prepend_nil. unfold plan.
  destruct (parseDomain w (domain_path o)); cbn [negb].
  2:{ intros H. injection H as <-. right. split; [reflexivity|]. now left. }
  destruct (parseProblem w (problem_path o)); cbn [negb].
  2:{ intros H. injection H as <-. right. split; [reflexivity|]. now left. }
  rewrite exit_code_prepend. unfold exit_code, prepend. cbn [fst].
  rewrite existsb_app. cbn [existsb is_cerr orb].
  destruct (snd (search_loop fuel w (search_options w o)
                   (lower_bound (search_options w o)))) as [c'| |] eqn:Hend;
    try discriminate.
  intros H. injection H as ->.
  destruct (search_loop_code_and_stderr _ _ _ _ _ Hend) as [[-> Hq]|[-> Hq]].
  - left. now split.
  - right. split; [reflexivity|]. now left.
Qed.

Lemma exit_code_and_stderr_witness :
  let w := mkWorld (fun _ => true) (fun _ => false) Grounded (fun _ => 1)
                   (fun _ _ => true) (fun _ _ => 0) in
  existsb is_cerr (fst (main 1 w (command_line []))) = true \/
  argument_failure (command_line []).
Proof.
  cbv zeta.
  destruct (exit_code_and_stderr 1
              (mkWorld (fun _ => true) (fun _ => false) Grounded (fun _ => 1)
                       (fun _ _ => true) (fun _ _ => 0))
              (command_line []) 1 eq_refl) as [[H01 _]|[_ H]].
  - discriminate H01.
  - exact H.
Defined.
